(** * LMServer: the admission gate and the backend relay

    A shallow embedding of [lmserver/config.py], [lmserver/proxy.py] and
    [lmserver/main.py].

    - Python dictionaries are finite maps ([gmap string Json]).
    - A call that may raise returns a [result]: [Returns v] or [Raises e].
    - A coroutine is a frame (program point plus locals) that is resumed with
      the outcome of the operation it awaits; the event loop is a step
      function on a pool of such frames and the shared semaphore.
    - Logging and the [time.monotonic] bookkeeping do not influence control
      flow and are left out; time-outs reach the code as [RequestError]. *)

From stdpp Require Import base option gmap strings list fin_maps pretty.

Local Open Scope Z_scope.
Local Open Scope string_scope.
Local Open Scope list_scope.
Local Set Warnings "-register-all".

(** ** JSON values, as produced by [response.json()] and [model_dump] *)

(** A string is a text, held as its UTF-8 bytes; a Python string that UTF-8
    cannot encode (one with a lone surrogate) has no counterpart here. *)

Inductive Json : Type :=
| JNull
| JBool (b : bool)
| JInt (n : Z)
| JFloat (bits : Z)          (* IEEE-754 binary64 bit pattern, never computed with *)
| JStr (s : string)
| JList (l : list Json)
| JDict (d : gmap string Json).

(** [obj.get(key)] on a value that is expected to be a dict. *)
Definition dict_get (key : string) (j : Json) : option Json :=
  match j with
  | JDict d => d !! key
  | _ => None
  end.

(** Python truthiness of [d.get(key)], where [None] stands for a missing key. *)
Definition truthy (v : option Json) : bool :=
  match v with
  | None => false
  | Some JNull => false
  | Some (JBool b) => b
  | Some (JInt n) => negb (n =? 0)%Z
  | Some (JFloat bits) => negb ((bits =? 0)%Z || (bits =? 2 ^ 63)%Z)
  | Some (JStr s) => negb (String.eqb s "")
  | Some (JList l) => negb (Nat.eqb (length l) 0)
  | Some (JDict d) => negb (Nat.eqb (size d) 0)
  end.

Definition is_null (j : Json) : bool :=
  match j with JNull => true | _ => false end.

(** A binary64 whose exponent bits are all ones is an infinity or a NaN. *)
Definition finite (bits : Z) : bool :=
  negb (Z.land (Z.shiftr bits 52) 2047 =? 2047)%Z.

(** What [json.dumps(..., allow_nan=False)] accepts: a value with no
    infinity and no NaN anywhere in it. *)
Fixpoint compliant (j : Json) : bool :=
  match j with
  | JFloat bits => finite bits
  | JList l => forallb compliant l
  | JDict d => map_fold (fun _ v acc => compliant v && acc) true d
  | _ => true
  end.

(** ** config.py *)

(** The settings the relay and the routes read; the request time-out and the
    DNS registration fields take no part in what follows. *)
Record Settings : Type := {
  host : string;
  port : Z;
  llama_server_url : string;
  max_concurrent_requests : Z;
  default_model : string
}.

Definition default_settings : Settings := {|
  host := "0.0.0.0";
  port := 8000;
  llama_server_url := "http://127.0.0.1:8080";
  max_concurrent_requests := 4;
  default_model := "gpt-oss-20b"
|}.

(** ** The httpx interface used by the relay *)

(** What [response.json()] gives: the decoded payload, or the message of the
    [json.JSONDecodeError] it raises when the body is not a JSON document. *)
Inductive decoded : Type :=
| Decoded (payload : Json)
| Undecodable (msg : string).

Record Response : Type := {
  status_code : Z;
  reason_phrase : string;
  url : string;
  location : option string;   (* the Location header, when there is one *)
  text : string;
  json : decoded
}.

Inductive exn : Type :=
| HTTPStatusError (message : string) (response : Response)
| RequestError (message : string)    (* httpx.RequestError: connect, read, time-out, ... *)
| JSONDecodeError (message : string) (* json.JSONDecodeError, a ValueError *)
| ValueError (message : string)
| CancelledError                     (* asyncio.CancelledError, a BaseException *)
| GeneratorExit.                     (* thrown at a [yield] by [aclose()], a BaseException *)

(** [str(e)] *)
Definition exn_str (e : exn) : string :=
  match e with
  | HTTPStatusError message _ => message
  | RequestError message => message
  | JSONDecodeError message => message
  | ValueError message => message
  | CancelledError => ""
  | GeneratorExit => ""
  end.

(** [isinstance(e, Exception)]: the two control-flow exceptions derive from
    [BaseException] only, so [except Exception] lets them through. *)
Definition is_Exception (e : exn) : bool :=
  match e with
  | CancelledError | GeneratorExit => false
  | _ => true
  end.

Inductive result (A : Type) : Type :=
| Returns (a : A)
| Raises (e : exn).
Arguments Returns {A} a.
Arguments Raises {A} e.

#[global] Instance result_ret : MRet result := fun A a => Returns a.
#[global] Instance result_bind : MBind result := fun A B f m =>
  match m with
  | Returns a => f a
  | Raises e => Raises e
  end.

Definition response_json (response : Response) : result Json :=
  match json response with
  | Decoded payload => Returns payload
  | Undecodable msg => Raises (JSONDecodeError msg)
  end.

(** [Response.is_success] *)
Definition is_success (response : Response) : bool :=
  (200 <=? status_code response)%Z && (status_code response <=? 299)%Z.

(** The message httpx builds in [Response.raise_for_status]. *)
Definition error_type (status : Z) : string :=
  match (status `div` 100)%Z with
  | 1%Z => "Informational response"
  | 3%Z => "Redirect response"
  | 4%Z => "Client error"
  | 5%Z => "Server error"
  | _ => "Invalid status code"
  end.

Definition newline : string := String (Ascii.ascii_of_nat 10) "".

(** [Response.has_redirect_location] *)
Definition has_redirect_location (response : Response) : bool :=
  bool_decide (status_code response ∈ [301; 302; 303; 307; 308]%Z)
  && bool_decide (is_Some (location response)).

Definition status_message (response : Response) : string :=
  error_type (status_code response) +:+ " '" +:+ pretty (status_code response)
    +:+ " " +:+ reason_phrase response +:+ "' for url '" +:+ url response +:+ "'"
    +:+ newline
    +:+ (if has_redirect_location response
         then "Redirect location: '" +:+ default "" (location response) +:+ "'" +:+ newline
         else "")
    +:+ "For more information check: https://developer.mozilla.org/en-US/docs/Web/HTTP/Status/"
    +:+ pretty (status_code response).

Definition raise_for_status (response : Response) : result Response :=
  if is_success response then Returns response
  else Raises (HTTPStatusError (status_message response) response).

(** ** proxy.py: the calls that need no permit *)

Module LlamaServerProxy.

(** [health_check], given the outcome of [client.get(base_url + "/health")]. *)
Definition health_check (get : result Response) : result Json :=
  match get with
  | Returns response =>
      payload ← response_json response;
      Returns (JDict {[ "status" := JStr "ok"; "llama_server" := payload ]})
  | Raises (RequestError message) =>
      Returns (JDict {[ "status" := JStr "error"; "error" := JStr message ]})
  | Raises e => Raises e
  end.

(** [list_models], given the outcome of [client.get(base_url + "/v1/models")]. *)
Definition list_models (settings : Settings) (get : result Response) : result Json :=
  match get with
  | Returns response => response_json response
  | Raises (RequestError _) =>
      Returns (JDict {[
        "object" := JStr "list";
        "data" := JList [ JDict {[ "id" := JStr (default_model settings);
                                   "object" := JStr "model";
                                   "owned_by" := JStr "local" ]} ] ]})
  | Raises e => Raises e
  end.

End LlamaServerProxy.

(** ** main.py: [GET /health] *)


(** ** main.py: the body of [POST /v1/chat/completions] *)

Record ChatMessage : Type := { role : string; content : string }.

Record ChatCompletionRequest : Type := {
  model : option string;
  messages : list ChatMessage;
  temperature : option Z;      (* float, as its bit pattern *)
  top_p : option Z;            (* float, as its bit pattern *)
  max_tokens : option Z;
  stream : bool;
  extra : gmap string Json     (* [extra = "allow"]: the undeclared fields *)
}.

Definition declared_fields : list string :=
  ["model"; "messages"; "temperature"; "top_p"; "max_tokens"; "stream"].

(** What pydantic guarantees of a validated request: an undeclared field is
    never stored under the name of a declared one. *)
Definition valid_request (request : ChatCompletionRequest) : Prop :=
  Forall (fun name => extra request !! name = None) declared_fields.

Definition dump_message (m : ChatMessage) : Json :=
  JDict {[ "role" := JStr (role m); "content" := JStr (content m) ]}.

Definition set_field (key : string) (value : option Json)
    (d : gmap string Json) : gmap string Json :=
  match value with
  | Some v => <[key := v]> d
  | None => d
  end.

(** [request.model_dump(exclude_none=True)] *)
Definition model_dump_exclude_none (request : ChatCompletionRequest) : gmap string Json :=
  set_field "model" (JStr <$> model request)
  (<["messages" := JList (dump_message <$> messages request)]>
  (set_field "temperature" (JFloat <$> temperature request)
  (set_field "top_p" (JFloat <$> top_p request)
  (set_field "max_tokens" (JInt <$> max_tokens request)
  (<["stream" := JBool (stream request)]>
  (filter (fun kv => is_null kv.2 = false) (extra request))))))).

(** Lines 109-114 of main.py: the body handed to the relay. *)
Definition request_body (settings : Settings) (request : ChatCompletionRequest)
    : gmap string Json :=
  let body := model_dump_exclude_none request in
  if truthy (body !! "model") then body
  else <["model" := JStr (default_model settings)]> body.

(** ** main.py: what the gateway answers *)

Definition chunk : Type := list Byte.byte.

Inductive gateway_response : Type :=
| JSONResponse (status_code : Z) (content : Json)
| StreamingResponse (media_type : string)
| HTTPException (status_code : Z) (detail : string).

(** [JSONResponse(content=..., status_code=...)] renders its content when it
    is built, with [allow_nan=False]: a payload that holds an infinity or a
    NaN makes it raise the encoder's [ValueError] (worded as by CPython
    3.11). *)
Definition new_JSONResponse (status_code : Z) (content : Json) : result gateway_response :=
  if compliant content then Returns (JSONResponse status_code content)
  else Raises (ValueError "Out of range float values are not JSON compliant").

(** Lines 116-130 of main.py, unary branch: [outcome] is what
    [await proxy.chat_completions(request_body)] gave; the response is built
    inside the [try] statement as well. An exception that is not an
    [Exception] passes through the handler. *)
Definition chat_completions_response (outcome : result Json) : result gateway_response :=
  match (content ← outcome; new_JSONResponse 200 content) with
  | Returns response => Returns response
  | Raises e =>
      if is_Exception e
      then Returns (HTTPException 502 ("Backend error: " +:+ exn_str e))
      else Raises e
  end.

(** Lines 117-122, streaming branch: the handler only creates the generator
    and answers at once; the generator runs while the response is sent,
    outside the [try] statement. *)
Definition chat_completions_stream_response : result gateway_response :=
  Returns (StreamingResponse "text/event-stream").

(** ** proxy.py: the admission gate *)

(** [asyncio.Semaphore], by its documented contract: an internal counter that
    [acquire()] decrements, waiting while it is zero, and that [release()]
    increments. The counter of the model is the number of permits that no
    coroutine inside the block holds. CPython keeps that number in two
    places, [sem._value] and the permits [release()] has already handed to
    woken waiters that have not resumed yet; the model does not tell the two
    apart: here a waiter takes its permit in the step in which its
    [acquire()] returns. *)
Record Semaphore : Type := { _value : Z }.

Definition new_Semaphore (value : Z) : result Semaphore :=
  if (value <? 0)%Z then Raises (ValueError "Semaphore initial value must be >= 0")
  else Returns {| _value := value |}.

Definition release (sem : Semaphore) : Semaphore := {| _value := (_value sem + 1)%Z |}.

(** [acquire()] returns only when the counter is positive. *)
Definition acquire (sem : Semaphore) : option Semaphore :=
  if (0 <? _value sem)%Z then Some {| _value := (_value sem - 1)%Z |} else None.

(** ** proxy.py: the two guarded coroutines *)

Inductive sent_body : Type :=
| JsonContent (body : gmap string Json)   (* [json=request_body] *)
| RawContent (body : chunk).              (* [content=body] *)

Inductive event : Type :=
| EvAcquire                                       (* [semaphore.__aenter__()] returned *)
| EvRelease                                       (* [semaphore.__aexit__()] ran *)
| EvBackend (method url : string) (c : sent_body)   (* the HTTP client is called for this request *)
| EvReceived (c : chunk)                          (* [aiter_bytes()] produced a chunk *)
| EvYield (c : chunk)                             (* [yield chunk] *)
| EvExit (outcome : result Json).                 (* the coroutine returned or raised *)

Inductive call : Type :=
| Unary     (* [chat_completions] *)
| Stream.   (* [chat_completions_stream] *)

(** The suspension points inside the [async with semaphore:] block. *)
Inductive point : Type :=
| AwaitPost      (* proxy.py:63  [response = await client.post(...)] *)
| AwaitStream    (* proxy.py:92  [async with client.stream(...) as response] *)
| AwaitChunk     (* proxy.py:98  [async for chunk in response.aiter_bytes()] *)
| AtYield.       (* proxy.py:99  [yield chunk] *)

(** What a suspended coroutine is resumed with. *)
Inductive input : Type :=
| Responded (response : Response)   (* the request got its response *)
| Chunk (c : chunk)                 (* the next chunk of the body *)
| EndOfStream                       (* the body is exhausted *)
| Next                              (* the consumer asks for the next item *)
| Throw (e : exn).                  (* the awaited call raises, at once or later, or [e] is thrown in *)

Inductive progress : Type :=
| Suspend (p : point)
| Exit (outcome : result Json).

(** The [except] clauses of both coroutines log and re-raise. *)
Definition except_clauses (r : result Json) : result Json :=
  match r with
  | Raises (HTTPStatusError message response) => Raises (HTTPStatusError message response)
  | Raises (RequestError message) => Raises (RequestError message)
  | other => other
  end.

(** Lines 61-79: the [try] statement of [chat_completions], given the outcome
    of [client.post]. *)
Definition chat_completions_try (post : result Response) : result Json :=
  except_clauses (
    response ← post;
    _ ← raise_for_status response;
    response_json response).

Definition chat_url (settings : Settings) : string :=
  llama_server_url settings +:+ "/v1/chat/completions".

(** From the top of the [async with semaphore:] block to its first
    suspension: the HTTP client is called with the URL and the body. What
    the client does with them is the outcome the coroutine is resumed with:
    a response, or an exception, which the client may raise at once, before
    anything has left (a body it cannot encode), or later. *)
Definition block_enter (settings : Settings) (k : call) (request_body : sent_body)
    : list event * point :=
  match k with
  | Unary => ([EvBackend "POST" (chat_url settings) request_body], AwaitPost)
  | Stream => ([EvBackend "POST" (chat_url settings) request_body], AwaitStream)
  end.

(** From one suspension point of the block to the next one, or out of the
    block. [None]: the input is not what the coroutine waits for. *)
Definition block_resume (p : point) (i : input) : option (list event * progress) :=
  match p, i with
  | AwaitPost, Responded response => Some ([], Exit (chat_completions_try (Returns response)))
  | AwaitPost, Throw e => Some ([], Exit (chat_completions_try (Raises e)))
  | AwaitStream, Responded response =>
      match raise_for_status response with
      | Returns _ => Some ([], Suspend AwaitChunk)
      | Raises e => Some ([], Exit (except_clauses (Raises e)))
      end
  | AwaitStream, Throw e => Some ([], Exit (except_clauses (Raises e)))
  | AwaitChunk, Chunk c => Some ([EvReceived c; EvYield c], Suspend AtYield)
  | AwaitChunk, EndOfStream => Some ([], Exit (Returns JNull))
  | AwaitChunk, Throw e => Some ([], Exit (except_clauses (Raises e)))
  | AtYield, Next => Some ([], Suspend AwaitChunk)
  | AtYield, Throw e => Some ([], Exit (except_clauses (Raises e)))
  | _, _ => None
  end.

(** A coroutine frame of [chat_completions] or [chat_completions_stream]. *)
Inductive frame : Type :=
| Created                         (* the body has not started to run *)
| Acquiring                       (* proxy.py:54/89  waiting in [semaphore.__aenter__()] *)
| Inside (p : point)              (* suspended inside the [async with] block *)
| Finished (outcome : result Json).

Record task : Type := {
  kind : call;
  body : sent_body;
  fr : frame;
  log : list event
}.

(** The module-level state: the global [_inference_semaphore] (every
    coroutine's local [semaphore] is this one object) and the coroutines the
    event loop knows of. *)
Record state : Type := {
  _inference_semaphore : option Semaphore;
  tasks : list task
}.

Definition initial : state := {| _inference_semaphore := None; tasks := [] |}.

Definition get_semaphore (settings : Settings) (s : state) : result (Semaphore * state) :=
  match _inference_semaphore s with
  | Some sem => Returns (sem, s)
  | None =>
      sem ← new_Semaphore (max_concurrent_requests settings);
      Returns (sem, {| _inference_semaphore := Some sem; tasks := tasks s |})
  end.

Definition set_task (t : nat) (c : task) (s : state) : state :=
  {| _inference_semaphore := _inference_semaphore s; tasks := <[t := c]> (tasks s) |}.

Definition set_semaphore (sem : Semaphore) (s : state) : state :=
  {| _inference_semaphore := Some sem; tasks := tasks s |}.

Definition advance (c : task) (f : frame) (events : list event) : task :=
  {| kind := kind c; body := body c; fr := f; log := log c ++ events |}.

Inductive action : Type :=
| Arrive (k : call) (request_body : sent_body)  (* main.py calls the relay *)
| QueueStatus                                 (* main.py: [get_semaphore()] at start-up or in [/v1/queue/status] *)
| Start (t : nat)                             (* the body runs up to [async with semaphore] *)
| Grant (t : nat)                             (* [acquire()] returns in coroutine [t] *)
| Resume (t : nat) (i : input).

(** One step of the event loop. [None]: the action is not enabled. *)
Definition step (settings : Settings) (s : state) (a : action) : option state :=
  match a with
  | Arrive k request_body =>
      Some {| _inference_semaphore := _inference_semaphore s;
              tasks := tasks s ++ [ {| kind := k; body := request_body; fr := Created; log := [] |} ] |}
  | QueueStatus =>
      match get_semaphore settings s with
      | Returns (_, s') => Some s'
      | Raises _ => Some s
      end
  | Start t =>
      c ← tasks s !! t;
      match fr c with
      | Created =>
          match get_semaphore settings s with
          | Returns (_, s') => Some (set_task t (advance c Acquiring []) s')
          | Raises e => Some (set_task t (advance c (Finished (Raises e)) [EvExit (Raises e)]) s)
          end
      | _ => None
      end
  | Grant t =>
      c ← tasks s !! t;
      match fr c with
      | Acquiring =>
          sem ← _inference_semaphore s;
          sem' ← acquire sem;
          let '(events, p) := block_enter settings (kind c) (body c) in
          Some (set_task t (advance c (Inside p) (EvAcquire :: events)) (set_semaphore sem' s))
      | _ => None
      end
  | Resume t i =>
      c ← tasks s !! t;
      match fr c with
      | Acquiring =>
          match i with
          | Throw e => Some (set_task t (advance c (Finished (Raises e)) [EvExit (Raises e)]) s)
          | _ => None
          end
      | Inside p =>
          '(events, pr) ← block_resume p i;
          match pr with
          | Suspend p' => Some (set_task t (advance c (Inside p') events) s)
          | Exit outcome =>
              sem ← _inference_semaphore s;
              Some (set_task t (advance c (Finished outcome) (events ++ [EvRelease; EvExit outcome]))
                      (set_semaphore (release sem) s))
          end
      | _ => None
      end
  end.

Fixpoint run (settings : Settings) (s : state) (schedule : list action) : option state :=
  match schedule with
  | [] => Some s
  | a :: schedule' => s' ← step settings s a; run settings s' schedule'
  end.

Inductive reachable (settings : Settings) : state → Prop :=
| reachable_initial : reachable settings initial
| reachable_step s a s' :
    reachable settings s → step settings s a = Some s' → reachable settings s'.

(** Observations on a state. A call is in flight while its coroutine is
    suspended inside the block: its request has been sent and it has not
    left the block yet. *)
Definition holds_permit (c : task) : bool :=
  match fr c with Inside _ => true | _ => false end.

Definition in_flight (s : state) : nat := length (filter (fun c => holds_permit c = true) (tasks s)).

Definition queued (s : state) (t : nat) : Prop :=
  ∃ c, tasks s !! t = Some c ∧ fr c = Acquiring.

(** The free slots: the counter of the model, which is [sem._value] plus the
    permits already handed to waiters that have not resumed. *)
Definition available_slots (s : state) : option Z := _value <$> _inference_semaphore s.

(** ** main.py: the routes *)

(** [POST /v1/chat/completions] hands the filled-in body to the relay: to the
    generator when [request.stream] is set, to [chat_completions] otherwise. *)
Definition chat_completions_call (settings : Settings) (request : ChatCompletionRequest)
    : action :=
  Arrive (if stream request then Stream else Unary)
         (JsonContent (request_body settings request)).

(** Lines 163-186: the passthrough route, given the outcome of
    [await request.body()] and of [client.request(...)]. It returns the call
    it makes to the HTTP client, with the URL as the handler writes it (the
    client parses and may normalise it), and its answer to the caller. *)
Definition proxy_fallback (settings : Settings) (method path : string)
    (read : result chunk) (answer : result Response)
    : list event * result gateway_response :=
  let except_Exception (r : result gateway_response) :=
    match r with
    | Raises e => if is_Exception e then Returns (HTTPException 502 (exn_str e)) else Raises e
    | done => done
    end in
  match read with
  | Raises e => ([], except_Exception (Raises e))
  | Returns request_body =>
      ([EvBackend method (llama_server_url settings +:+ "/v1/" +:+ path) (RawContent request_body)],
       except_Exception (
         response ← answer;
         content ← response_json response;
         new_JSONResponse (status_code response) content))
  end.

Inductive route : Type :=
| RouteHealth
| RouteRoot
| RouteChatCompletions
| RouteListModels
| RouteQueueStatus
| RouteProxyFallback (path : string).

Fixpoint strip_prefix (p s : string) : option string :=
  match p, s with
  | EmptyString, _ => Some s
  | String a p', String b s' => if Ascii.eqb a b then strip_prefix p' s' else None
  | String _ _, EmptyString => None
  end.

(** Starlette matches the path of a request with [re.match] on the route's
    pattern between [^] and [$]: the [$] also matches before one newline
    that ends the path, and [{path:path}] is [.*], which takes every
    character but a newline. *)
Fixpoint chomp (s : string) : string :=
  match s with
  | EmptyString => EmptyString
  | String a s' =>
      if Ascii.eqb a (Ascii.ascii_of_nat 10) && String.eqb s' "" then EmptyString
      else String a (chomp s')
  end.

Fixpoint has_newline (s : string) : bool :=
  match s with
  | EmptyString => false
  | String a s' => Ascii.eqb a (Ascii.ascii_of_nat 10) || has_newline s'
  end.

Definition path_is (literal path : string) : bool := String.eqb (chomp path) literal.

(** [/v1/{path:path}]: the value of [path], if the pattern matches. *)
Definition match_fallback (path : string) : option string :=
  rest ← strip_prefix "/v1/" path;
  if has_newline (chomp rest) then None else Some (chomp rest).

(** The routes main.py declares, in the order of their decorators; the first
    one whose method and path both match serves the request. *)
Definition dispatch (method path : string) : option route :=
  if String.eqb method "GET" && path_is "/health" path then Some RouteHealth
  else if String.eqb method "GET" && path_is "/" path then Some RouteRoot
  else if String.eqb method "POST" && path_is "/v1/chat/completions" path
  then Some RouteChatCompletions
  else if String.eqb method "GET" && path_is "/v1/models" path then Some RouteListModels
  else if String.eqb method "GET" && path_is "/v1/queue/status" path
  then Some RouteQueueStatus
  else if String.eqb method "GET" || String.eqb method "POST"
  then RouteProxyFallback <$> match_fallback path
  else None.

(** ** Reading a log *)

(** Every request to the backend is sent while a permit is held. *)
Fixpoint gated_from (held : bool) (events : list event) : bool :=
  match events with
  | [] => true
  | EvAcquire :: rest => gated_from true rest
  | EvRelease :: rest => gated_from false rest
  | EvBackend _ _ _ :: rest => held && gated_from held rest
  | _ :: rest => gated_from held rest
  end.

Definition gated (events : list event) : Prop := gated_from false events = true.

Definition is_acquire (e : event) : bool := match e with EvAcquire => true | _ => false end.
Definition is_release (e : event) : bool := match e with EvRelease => true | _ => false end.

Definition acquires (events : list event) : nat := length (filter (fun e => is_acquire e = true) events).
Definition releases (events : list event) : nat := length (filter (fun e => is_release e = true) events).

Definition received (events : list event) : list chunk :=
  omap (fun e => match e with EvReceived c => Some c | _ => None end) events.

Definition yielded (events : list event) : list chunk :=
  omap (fun e => match e with EvYield c => Some c | _ => None end) events.

(** What forwarding the chunks [cs] one by one leaves in a log. *)
Definition chunk_events (cs : list chunk) : list event :=
  cs ≫= (fun c => [EvReceived c; EvYield c]).

Definition opened (settings : Settings) (c : task) : list event :=
  [EvAcquire; EvBackend "POST" (chat_url settings) (body c)].

(** The points a coroutine of each kind can be suspended at, with the chunks
    it has forwarded so far. *)
Definition point_ok (k : call) (p : point) (cs : list chunk) : Prop :=
  match k, p with
  | Unary, AwaitPost => cs = []
  | Stream, AwaitStream => cs = []
  | Stream, AwaitChunk => True
  | Stream, AtYield => cs ≠ []
  | _, _ => False
  end.

(** The log of a coroutine, by the frame it is in. *)
Inductive shape (settings : Settings) (c : task) : Prop :=
| shape_waiting :
    fr c = Created ∨ fr c = Acquiring → log c = [] → shape settings c
| shape_refused o :
    fr c = Finished o → log c = [EvExit o] → shape settings c
| shape_inside p cs :
    fr c = Inside p → point_ok (kind c) p cs →
    log c = opened settings c ++ chunk_events cs → shape settings c
| shape_done o cs :
    fr c = Finished o → (kind c = Unary → cs = []) →
    log c = opened settings c ++ chunk_events cs ++ [EvRelease; EvExit o] →
    shape settings c.

(** A coroutine that has not reached, or will never reach, the semaphore. *)
Definition dormant (c : task) : Prop :=
  match fr c with
  | Created | Finished _ => True
  | Acquiring | Inside _ => False
  end.

(** The counter of the semaphore and the permits held add up to the
    configured capacity; before the semaphore exists nobody waits for it. *)
Definition accounted (settings : Settings) (s : state) : Prop :=
  match _inference_semaphore s with
  | None => Forall dormant (tasks s)
  | Some sem =>
      (0 ≤ _value sem)%Z ∧
      (_value sem + Z.of_nat (in_flight s))%Z = max_concurrent_requests settings
  end.

Definition invariant (settings : Settings) (s : state) : Prop :=
  Forall (shape settings) (tasks s) ∧ accounted settings s.

(** The consumer of a stream that pulls every chunk: the schedule of
    coroutine [t] against a backend that answers [response] and then sends
    [cs]. *)
Definition stream_schedule (t : nat) (response : Response) (cs : list chunk) : list action :=
  [Start t; Grant t; Resume t (Responded response)]
  ++ (cs ≫= (fun c => [Resume t (Chunk c); Resume t Next]))
  ++ [Resume t EndOfStream].

(** ** Substrings *)

Definition infix_of (s t : string) : Prop := ∃ a b, t = a +:+ s +:+ b.

Fixpoint infixb (s t : string) : bool :=
  String.prefix s t ||
  match t with
  | EmptyString => false
  | String _ t' => infixb s t'
  end.

(** ** Sample inputs *)

Definition dq : string := String (Ascii.ascii_of_nat 34) "".
Definition quoted (s : string) : string := dq +:+ s +:+ dq.

(** llama-server while it loads its model: 503 with a JSON error body. *)
Definition loading_response : Response := {|
  status_code := 503;
  reason_phrase := "Service Unavailable";
  url := "http://127.0.0.1:8080/health";
  location := None;
  text := "{" +:+ quoted "error" +:+ ":" +:+ quoted "Loading model" +:+ "}";
  json := Decoded (JDict {[ "error" := JStr "Loading model" ]})
|}.

(** A health path that answers in plain text. *)
Definition plain_text_response : Response := {|
  status_code := 200;
  reason_phrase := "OK";
  url := "http://127.0.0.1:8080/health";
  location := None;
  text := "ok";
  json := Undecodable "Expecting value: line 1 column 1 (char 0)"
|}.

Definition models_response : Response := {|
  status_code := 200;
  reason_phrase := "OK";
  url := "http://127.0.0.1:8080/v1/models";
  location := None;
  text := "{" +:+ quoted "object" +:+ ":" +:+ quoted "list" +:+ ","
              +:+ quoted "data" +:+ ":[]}";
  json := Decoded (JDict {[ "object" := JStr "list"; "data" := JList [] ]})
|}.

Definition one_slot : Settings := {|
  host := "0.0.0.0";
  port := 8000;
  llama_server_url := "http://127.0.0.1:8080";
  max_concurrent_requests := 1;
  default_model := "gpt-oss-20b"
|}.

Definition hello : list ChatMessage := [ {| role := "user"; content := "hello" |} ].

Definition stream_request : ChatCompletionRequest := {|
  model := None; messages := hello;
  temperature := None; top_p := None; max_tokens := Some 16%Z;
  stream := true; extra := ∅
|}.

Definition unary_request : ChatCompletionRequest := {|
  model := Some "llama-3"; messages := hello;
  temperature := None; top_p := None; max_tokens := None;
  stream := false; extra := ∅
|}.

(** A request that sets the model to the empty string. *)
Definition empty_model_request : ChatCompletionRequest := {|
  model := Some ""; messages := hello;
  temperature := None; top_p := None; max_tokens := None;
  stream := false; extra := ∅
|}.

Definition ok_response : Response := {|
  status_code := 200;
  reason_phrase := "OK";
  url := "http://127.0.0.1:8080/v1/chat/completions";
  location := None;
  text := "{" +:+ quoted "choices" +:+ ":[]}";
  json := Decoded (JDict {[ "choices" := JList [] ]})
|}.

(** The backend out of memory: 500 with the body [{"error":"oom"}]. *)
Definition oom_response : Response := {|
  status_code := 500;
  reason_phrase := "Internal Server Error";
  url := "http://127.0.0.1:8080/v1/chat/completions";
  location := None;
  text := "{" +:+ quoted "error" +:+ ":" +:+ quoted "oom" +:+ "}";
  json := Decoded (JDict {[ "error" := JStr "oom" ]})
|}.

(** One slot, a stream that has its headers and a unary call behind it. *)
Definition busy_schedule : list action :=
  [ chat_completions_call one_slot stream_request;
    chat_completions_call one_slot unary_request;
    Start 0; Start 1; Grant 0; Resume 0 (Responded ok_response) ].

Definition busy_state : state := {|
  _inference_semaphore := Some {| _value := 0 |};
  tasks := [
    {| kind := Stream;
       body := JsonContent (request_body one_slot stream_request);
       fr := Inside AwaitChunk;
       log := [ EvAcquire;
                EvBackend "POST" "http://127.0.0.1:8080/v1/chat/completions"
                  (JsonContent (request_body one_slot stream_request)) ] |};
    {| kind := Unary;
       body := JsonContent (request_body one_slot unary_request);
       fr := Acquiring;
       log := [] |} ]
|}.



(** A legacy completion request for the passthrough route. *)
Definition prompt_bytes : chunk :=
  String.list_byte_of_string ("{" +:+ quoted "prompt" +:+ ":" +:+ quoted "hello" +:+ "}").

Definition completion_response : Response := {|
  status_code := 200;
  reason_phrase := "OK";
  url := "http://127.0.0.1:8080/v1/completions";
  location := None;
  text := "{" +:+ quoted "content" +:+ ":" +:+ quoted "hi" +:+ "}";
  json := Decoded (JDict {[ "content" := JStr "hi" ]})
|}.

Definition two_chunks : list chunk :=
  [ String.list_byte_of_string "data: a"; String.list_byte_of_string "data: b" ].

Definition arrived_state : state := {|
  _inference_semaphore := None;
  tasks := [ {| kind := Stream;
                body := JsonContent (request_body one_slot stream_request);
                fr := Created;
                log := [] |} ]
|}.

(** Capacity two and three unary calls that arrive together. *)
Definition two_slots : Settings := {|
  host := "0.0.0.0";
  port := 8000;
  llama_server_url := "http://127.0.0.1:8080";
  max_concurrent_requests := 2;
  default_model := "gpt-oss-20b"
|}.

Definition three_calls : list action :=
  [ chat_completions_call two_slots unary_request;
    chat_completions_call two_slots unary_request;
    chat_completions_call two_slots unary_request;
    Start 0; Start 1; Start 2; Grant 0; Grant 1 ].

(** ** dns.py *)

(** The DNS registration fields of the settings. *)
Record DnsSettings : Type := {
  dns_domain_base : string;
  dns_api_url : string;
  dns_service_name : string;
  dns_register_on_startup : bool;
  dns_target_device : string
}.

Definition default_dns_settings : DnsSettings := {|
  dns_domain_base := "internal.jerkytreats.dev";
  dns_api_url := "https://dns.internal.jerkytreats.dev";
  dns_service_name := "chat";
  dns_register_on_startup := false;
  dns_target_device := "leviathan"
|}.

(** A POST with a JSON body that leaves the process. *)
Record post_request : Type := {
  post_url : string;
  post_json : gmap string Json
}.

(** [register_dns], given the outcome of [client.post(...)]: the request it
    sends, if it sends one, and what it returns. *)
Definition register_dns (settings : Settings) (dns : DnsSettings) (post : result Response)
    : option post_request * result bool :=
  if negb (dns_register_on_startup dns) then (None, Returns true)
  else
    let payload : gmap string Json :=
      {[ "name" := JStr (dns_service_name dns);
         "port" := JInt (port settings);
         "service_name" := JStr "lmserver";
         "target_device" := JStr (dns_target_device dns) ]} in
    (Some {| post_url := dns_api_url dns +:+ "/add-record/"; post_json := payload |},
     match (response ← post; raise_for_status response) with
     | Returns _ => Returns true
     | Raises (HTTPStatusError _ _) => Returns false
     | Raises (RequestError _) => Returns false
     | Raises e => Raises e
     end).

Definition deregister_dns : result bool := Returns true.

(** ** main.py: start-up *)

(** Lines 22-36: [lifespan] up to its [yield]. The value [register_dns]
    returns is not looked at. *)
Definition lifespan_startup (settings : Settings) (dns : DnsSettings) (s : state)
    (post : result Response) : option post_request * result state :=
  match get_semaphore settings s with
  | Raises e => (None, Raises e)
  | Returns (_, s') =>
      let '(sent, registered) := register_dns settings dns post in
      (sent, _ ← registered; Returns s')
  end.

(** ** Reading a log, continued *)

(** The coroutine an action of the event loop runs, if it runs one. *)
Definition target (a : action) : option nat :=
  match a with
  | Arrive _ _ | QueueStatus => None
  | Start t | Grant t | Resume t _ => Some t
  end.

Definition is_backend (e : event) : bool :=
  match e with EvBackend _ _ _ => true | _ => false end.

(** The requests a coroutine has sent to the backend. *)
Definition backend_calls (events : list event) : list event :=
  filter (fun e => is_backend e = true) events.

(** ** Sample inputs, continued *)

(** A capacity that [asyncio.Semaphore] refuses. *)
Definition negative_slots : Settings := {|
  host := "0.0.0.0";
  port := 8000;
  llama_server_url := "http://127.0.0.1:8080";
  max_concurrent_requests := -1;
  default_model := "gpt-oss-20b"
|}.

Definition registering : DnsSettings := {|
  dns_domain_base := "internal.jerkytreats.dev";
  dns_api_url := "https://dns.internal.jerkytreats.dev";
  dns_service_name := "chat";
  dns_register_on_startup := true;
  dns_target_device := "leviathan"
|}.

(** The backend does not know the path: 404 with a JSON body. *)
Definition not_found_response : Response := {|
  status_code := 404;
  reason_phrase := "Not Found";
  url := "http://127.0.0.1:8080/v1/embeddings";
  location := None;
  text := "{" +:+ quoted "error" +:+ ":" +:+ quoted "not found" +:+ "}";
  json := Decoded (JDict {[ "error" := JStr "not found" ]})
|}.


(** How the event loop resumes a coroutine that awaits a response. *)
Definition resume_with (post : result Response) : input :=
  match post with
  | Returns response => Responded response
  | Raises e => Throw e
  end.

(** A capacity of zero, which [asyncio.Semaphore] accepts. *)
Definition zero_slots : Settings := {|
  host := "0.0.0.0";
  port := 8000;
  llama_server_url := "http://127.0.0.1:8080";
  max_concurrent_requests := 0;
  default_model := "gpt-oss-20b"
|}.

Definition stuck_schedule : list action :=
  [ chat_completions_call zero_slots unary_request; Start 0 ].

Definition stuck_state : state := {|
  _inference_semaphore := Some {| _value := 0 |};
  tasks := [ {| kind := Unary;
                body := JsonContent (request_body zero_slots unary_request);
                fr := Acquiring;
                log := [] |} ]
|}.

Definition unary_arrived_state : state := {|
  _inference_semaphore := None;
  tasks := [ {| kind := Unary;
                body := JsonContent (request_body one_slot unary_request);
                fr := Created;
                log := [] |} ]
|}.

(** The models path answering in plain text. *)
Definition plain_text_models_response : Response := {|
  status_code := 200;
  reason_phrase := "OK";
  url := "http://127.0.0.1:8080/v1/models";
  location := None;
  text := "ok";
  json := Undecodable "Expecting value: line 1 column 1 (char 0)"
|}.


(** One slot; the stream has forwarded a chunk and is suspended at its
    [yield], a unary call waits behind it. *)
Definition parked_schedule : list action :=
  busy_schedule ++ [ Resume 0 (Chunk (String.list_byte_of_string "data: a")) ].

Definition parked_state : state := {|
  _inference_semaphore := Some {| _value := 0 |};
  tasks := [
    {| kind := Stream;
       body := JsonContent (request_body one_slot stream_request);
       fr := Inside AtYield;
       log := [ EvAcquire;
                EvBackend "POST" "http://127.0.0.1:8080/v1/chat/completions"
                  (JsonContent (request_body one_slot stream_request));
                EvReceived (String.list_byte_of_string "data: a");
                EvYield (String.list_byte_of_string "data: a") ] |};
    {| kind := Unary;
       body := JsonContent (request_body one_slot unary_request);
       fr := Acquiring;
       log := [] |} ]
|}.

(** * Properties *)

(** ** Substrings *)

Lemma append_cons (x : Ascii.ascii) (a b : string) : String x a +:+ b = String x (a +:+ b).
Proof. reflexivity. Qed.

Lemma append_nil (b : string) : "" +:+ b = b.
Proof. reflexivity. Qed.

Lemma prefix_append (s b : string) : String.prefix s (s +:+ b) = true.
Proof.
  induction s as [|a s IH].
  - rewrite append_nil. by destruct b.
  - rewrite append_cons. simpl. destruct (Ascii.ascii_dec a a); [apply IH | done].
Qed.

Lemma infixb_prefix (s t : string) : String.prefix s t = true → infixb s t = true.
Proof. intros H. destruct t; cbn [infixb]; by rewrite H. Qed.

Lemma infixb_complete (s t : string) : infix_of s t → infixb s t = true.
Proof.
  intros (a & b & ->). induction a as [|x a IH].
  - rewrite append_nil. apply infixb_prefix, prefix_append.
  - rewrite append_cons. cbn [infixb]. rewrite IH. apply orb_true_r.
Qed.

Lemma infix_of_middle (a s b : string) : infix_of s (a +:+ s +:+ b).
Proof. by exists a, b. Qed.

Lemma append_assoc (a b c : string) : (a +:+ b) +:+ c = a +:+ (b +:+ c).
Proof. induction a as [|x a IH]; [done | by rewrite !append_cons, IH]. Qed.

(** ** The advisory calls *)

(** C5, as amended: [health_check] returns a status payload for every
    response of the backend whose body decodes as JSON, whatever its HTTP
    status, and on every network failure it returns the degraded payload
    instead of raising. *)
Theorem health_check_absorbs (response : Response) (payload : Json) (message : string) :
  json response = Decoded payload →
  LlamaServerProxy.health_check (Returns response)
    = Returns (JDict {[ "status" := JStr "ok"; "llama_server" := payload ]})
  ∧ LlamaServerProxy.health_check (Raises (RequestError message))
    = Returns (JDict {[ "status" := JStr "error"; "error" := JStr message ]}).
Proof.
  intros Hjson. split; [|done].
  unfold LlamaServerProxy.health_check, response_json. by rewrite Hjson.
Qed.

Lemma health_check_absorbs_witness :
  LlamaServerProxy.health_check (Returns loading_response)
    = Returns (JDict {[ "status" := JStr "ok";
                        "llama_server" := JDict {[ "error" := JStr "Loading model" ]} ]})
  ∧ LlamaServerProxy.health_check (Raises (RequestError "All connection attempts failed"))
    = Returns (JDict {[ "status" := JStr "error";
                        "error" := JStr "All connection attempts failed" ]}).
Proof. apply (health_check_absorbs loading_response). reflexivity. Defined.

(** C5, as stated, fails: a response whose body is not a JSON document makes
    [health_check] raise the decoding error to its caller. *)
Lemma health_check_raises_on_plain_text :
  LlamaServerProxy.health_check (Returns plain_text_response)
    = Raises (JSONDecodeError "Expecting value: line 1 column 1 (char 0)").
Proof. reflexivity. Qed.

(** C6, as amended: [list_models] returns the payload of every response of
    the backend whose body decodes as JSON, whatever its HTTP status, and on
    every network failure a list of exactly one entry whose id is the
    configured default model. *)
Theorem list_models_payload_or_fallback
    (settings : Settings) (response : Response) (payload : Json) (message : string) :
  json response = Decoded payload →
  LlamaServerProxy.list_models settings (Returns response) = Returns payload
  ∧ ∃ entry,
      LlamaServerProxy.list_models settings (Raises (RequestError message))
        = Returns (JDict {[ "object" := JStr "list"; "data" := JList [entry] ]})
      ∧ dict_get "id" entry = Some (JStr (default_model settings)).
Proof.
  intros Hjson. split.
  - unfold LlamaServerProxy.list_models, response_json. by rewrite Hjson.
  - eexists. split; [reflexivity|]. simpl. apply lookup_insert_eq.
Qed.

Lemma list_models_payload_or_fallback_witness :
  LlamaServerProxy.list_models default_settings (Returns models_response)
    = Returns (JDict {[ "object" := JStr "list"; "data" := JList [] ]})
  ∧ ∃ entry,
      LlamaServerProxy.list_models default_settings (Raises (RequestError "timed out"))
        = Returns (JDict {[ "object" := JStr "list"; "data" := JList [entry] ]})
      ∧ dict_get "id" entry = Some (JStr "gpt-oss-20b").
Proof.
  apply (list_models_payload_or_fallback default_settings models_response). reflexivity.
Defined.

(** C6, as stated, fails: the backend is reachable and answers, but with a
    body that is not a JSON document; [list_models] then raises the decoding
    error instead of returning a payload. *)
Lemma list_models_raises_on_plain_text :
  LlamaServerProxy.list_models default_settings (Returns plain_text_models_response)
    = Raises (JSONDecodeError "Expecting value: line 1 column 1 (char 0)").
Proof. reflexivity. Qed.




(** ** The event loop: what every step preserves *)

Lemma except_clauses_id (r : result Json) : except_clauses r = r.
Proof. by destruct r as [|[]]. Qed.

Lemma block_resume_throw (p : point) (e : exn) :
  block_resume p (Throw e) = Some ([], Exit (Raises e)).
Proof.
  destruct p; cbn [block_resume]; unfold chat_completions_try;
    by rewrite except_clauses_id.
Qed.

Lemma chunk_events_snoc (cs : list chunk) (c : chunk) :
  chunk_events (cs ++ [c]) = chunk_events cs ++ [EvReceived c; EvYield c].
Proof. unfold chunk_events. by rewrite bind_app. Qed.

Lemma holding_insert (l : list task) (t : nat) (c c' : task) :
  l !! t = Some c →
  (length (filter (fun c => holds_permit c = true) (<[t := c']> l))
     + (if holds_permit c then 1 else 0)
   = length (filter (fun c => holds_permit c = true) l)
     + (if holds_permit c' then 1 else 0))%nat.
Proof.
  revert t. induction l as [|x l IH]; intros [|t] Hl; simplify_eq/=.
  - rewrite !filter_cons.
    destruct (holds_permit c), (holds_permit c'); repeat case_decide; simpl; try done; lia.
  - rewrite !filter_cons. specialize (IH _ Hl).
    case_decide; simpl; lia.
Qed.

Lemma in_flight_set_task (s : state) (t : nat) (c c' : task) :
  tasks s !! t = Some c →
  (in_flight (set_task t c' s) + (if holds_permit c then 1 else 0)
   = in_flight s + (if holds_permit c' then 1 else 0))%nat.
Proof. apply holding_insert. Qed.

Lemma in_flight_arrive (sem : option Semaphore) (l : list task) (k : call) (b : sent_body) :
  in_flight {| _inference_semaphore := sem;
               tasks := l ++ [ {| kind := k; body := b; fr := Created; log := [] |} ] |}
  = length (filter (fun c => holds_permit c = true) l).
Proof.
  unfold in_flight. simpl. rewrite filter_app, length_app. simpl. lia.
Qed.

Lemma get_semaphore_tasks (settings : Settings) (s s' : state) (sem : Semaphore) :
  get_semaphore settings s = Returns (sem, s') →
  tasks s' = tasks s ∧ _inference_semaphore s' = Some sem.
Proof.
  unfold get_semaphore, new_Semaphore. intros H.
  destruct (_inference_semaphore s) eqn:E.
  - by simplify_eq.
  - case_match; simplify_eq/=. done.
Qed.

Lemma get_semaphore_fresh (settings : Settings) (s s' : state) (sem : Semaphore) :
  _inference_semaphore s = None →
  get_semaphore settings s = Returns (sem, s') →
  (0 ≤ max_concurrent_requests settings)%Z
  ∧ _value sem = max_concurrent_requests settings.
Proof.
  unfold get_semaphore, new_Semaphore. intros -> H.
  case_match eqn:E; simplify_eq/=. split; [lia | done].
Qed.

Lemma get_semaphore_known (settings : Settings) (s s' : state) (sem sem' : Semaphore) :
  _inference_semaphore s = Some sem →
  get_semaphore settings s = Returns (sem', s') → s' = s.
Proof. unfold get_semaphore. intros -> H. by simplify_eq. Qed.

Lemma get_semaphore_raises (settings : Settings) (s : state) (e : exn) :
  get_semaphore settings s = Raises e → _inference_semaphore s = None.
Proof. unfold get_semaphore. by destruct (_inference_semaphore s). Qed.

Lemma dormant_in_flight (l : list task) :
  Forall dormant l → length (filter (fun c => holds_permit c = true) l) = 0%nat.
Proof.
  induction 1 as [|c l Hc _ IH]; [done|]. rewrite filter_cons.
  unfold dormant, holds_permit in *. destruct (fr c); case_decide; simplify_eq/=; done.
Qed.

Section Preservation.
Context (settings : Settings).

Lemma accounted_arrive (s : state) (k : call) (b : sent_body) :
  accounted settings s →
  accounted settings
    {| _inference_semaphore := _inference_semaphore s;
       tasks := tasks s ++ [ {| kind := k; body := b; fr := Created; log := [] |} ] |}.
Proof.
  unfold accounted. simpl. destruct (_inference_semaphore s) as [sem|].
  - by rewrite in_flight_arrive.
  - intros H. apply Forall_app. split; [done|]. by constructor.
Qed.

Lemma accounted_get_semaphore (s s' : state) (sem : Semaphore) :
  get_semaphore settings s = Returns (sem, s') →
  accounted settings s → accounted settings s'.
Proof.
  intros Hget Hacc. destruct (_inference_semaphore s) as [sem0|] eqn:E.
  - by rewrite (get_semaphore_known _ _ _ _ _ E Hget).
  - destruct (get_semaphore_fresh _ _ _ _ E Hget) as [Hpos Hval].
    destruct (get_semaphore_tasks _ _ _ _ Hget) as [Htasks Hsem].
    unfold accounted in *. rewrite E in Hacc. rewrite Hsem.
    unfold in_flight. rewrite Htasks, dormant_in_flight by done. lia.
Qed.

(** A step of coroutine [t] that leaves it on the same side of the gate. *)
Lemma accounted_same_side (s : state) (t : nat) (c c' : task) (sem : Semaphore) :
  _inference_semaphore s = Some sem →
  tasks s !! t = Some c →
  holds_permit c' = holds_permit c →
  accounted settings s → accounted settings (set_task t c' s).
Proof.
  intros Hsem Ht Hsame. unfold accounted. simpl. rewrite Hsem.
  pose proof (in_flight_set_task s t c c' Ht) as Hn. rewrite Hsame in Hn.
  intros [? ?]. split; [done|]. lia.
Qed.

Lemma accounted_dormant (s : state) (t : nat) (c' : task) :
  _inference_semaphore s = None →
  dormant c' →
  accounted settings s → accounted settings (set_task t c' s).
Proof.
  intros Hsem Hc. unfold accounted. simpl. rewrite Hsem.
  intros H. by apply Forall_insert.
Qed.

Lemma accounted_acquire (s : state) (t : nat) (c c' : task) (sem sem' : Semaphore) :
  _inference_semaphore s = Some sem →
  acquire sem = Some sem' →
  tasks s !! t = Some c →
  holds_permit c = false → holds_permit c' = true →
  accounted settings s → accounted settings (set_task t c' (set_semaphore sem' s)).
Proof.
  intros Hsem Hacq Ht Hc Hc'. unfold accounted. simpl. rewrite Hsem.
  pose proof (in_flight_set_task s t c c' Ht) as Hn. rewrite Hc, Hc' in Hn.
  unfold acquire in Hacq. case_match eqn:E; simplify_eq/=.
  change (in_flight (set_task t c' (set_semaphore _ s)))
    with (in_flight (set_task t c' s)).
  intros [? ?]. split; lia.
Qed.

Lemma accounted_release (s : state) (t : nat) (c c' : task) (sem : Semaphore) :
  _inference_semaphore s = Some sem →
  tasks s !! t = Some c →
  holds_permit c = true → holds_permit c' = false →
  accounted settings s → accounted settings (set_task t c' (set_semaphore (release sem) s)).
Proof.
  intros Hsem Ht Hc Hc'. unfold accounted. simpl. rewrite Hsem.
  pose proof (in_flight_set_task s t c c' Ht) as Hn. rewrite Hc, Hc' in Hn.
  change (in_flight (set_task t c' (set_semaphore _ s)))
    with (in_flight (set_task t c' s)).
  intros [? ?]. split; lia.
Qed.

(** Whoever waits for or holds a permit has seen the semaphore. *)
Lemma semaphore_exists (s : state) (t : nat) (c : task) :
  accounted settings s → tasks s !! t = Some c → ¬ dormant c →
  ∃ sem, _inference_semaphore s = Some sem.
Proof.
  unfold accounted. destruct (_inference_semaphore s) as [sem|]; [by eauto|].
  intros Hall Ht Hc. destruct Hc. by eapply Forall_lookup_1.
Qed.

End Preservation.

Section Shape.
Context (settings : Settings).

Lemma shape_waiting_inv (c : task) :
  shape settings c → fr c = Created ∨ fr c = Acquiring → log c = [].
Proof. intros H Hw. destruct H; destruct Hw; congruence. Qed.

Lemma shape_inside_inv (c : task) (p : point) :
  shape settings c → fr c = Inside p →
  ∃ cs, point_ok (kind c) p cs ∧ log c = opened settings c ++ chunk_events cs.
Proof.
  intros H Hp. destruct H as [[Hw|Hw] _|o Hf _|p' cs Hf Hok Hlog|o cs Hf _ _];
    try congruence.
  rewrite Hp in Hf. injection Hf as <-. by exists cs.
Qed.

Lemma shape_enter (c : task) (events : list event) (p : point) :
  shape settings c → fr c = Acquiring →
  block_enter settings (kind c) (body c) = (events, p) →
  shape settings (advance c (Inside p) (EvAcquire :: events)).
Proof.
  intros Hc Hfr Henter. apply (shape_inside _ _ p []); [done| |].
  - unfold block_enter in Henter. simpl. by destruct (kind c); simplify_eq.
  - simpl. rewrite (shape_waiting_inv c) by auto.
    unfold block_enter in Henter. unfold opened, chunk_events. simpl.
    by destruct (kind c); simplify_eq.
Qed.

Lemma shape_suspend (c : task) (p p' : point) (i : input) (events : list event) :
  shape settings c → fr c = Inside p →
  block_resume p i = Some (events, Suspend p') →
  shape settings (advance c (Inside p') events).
Proof.
  intros Hc Hfr Hres. destruct (shape_inside_inv c p Hc Hfr) as (cs & Hp & Hlog).
  destruct p, i; simplify_eq/=; try (destruct (kind c); done).
  - (* the response of the stream is a success *)
    destruct (raise_for_status response); simplify_eq/=.
    apply (shape_inside _ _ AwaitChunk cs); [done| |].
    + simpl. by destruct (kind c).
    + simpl. by rewrite Hlog, app_nil_r.
  - (* a chunk arrives and is yielded *)
    apply (shape_inside _ _ AtYield (cs ++ [c0])); [done| |].
    + simpl. destruct (kind c); [done|]. by destruct cs.
    + unfold opened in *. cbn [log body advance].
      by rewrite Hlog, chunk_events_snoc, !app_assoc.
  - (* the consumer asks for the next item *)
    apply (shape_inside _ _ AwaitChunk cs); [done| |].
    + simpl. by destruct (kind c).
    + simpl. by rewrite Hlog, app_nil_r.
Qed.

Lemma block_resume_exit_silent (p : point) (i : input) (events : list event) (o : result Json) :
  block_resume p i = Some (events, Exit o) → events = [].
Proof.
  destruct p, i; intros H; simplify_eq/=; try done.
  by destruct (raise_for_status response); simplify_eq.
Qed.

Lemma shape_exit (c : task) (p : point) (i : input) (events : list event) (o : result Json) :
  shape settings c → fr c = Inside p →
  block_resume p i = Some (events, Exit o) →
  shape settings (advance c (Finished o) (events ++ [EvRelease; EvExit o])).
Proof.
  intros Hc Hfr Hres. destruct (shape_inside_inv c p Hc Hfr) as (cs & Hp & Hlog).
  rewrite (block_resume_exit_silent _ _ _ _ Hres).
  apply (shape_done _ _ o cs); [done| |].
  - simpl. intros Hk. rewrite Hk in Hp. by destruct p.
  - unfold opened in *. cbn [log body advance].
    by rewrite Hlog, app_nil_l, !app_assoc.
Qed.

Lemma shape_refuse (c : task) (e : exn) :
  shape settings c → fr c = Created ∨ fr c = Acquiring →
  shape settings (advance c (Finished (Raises e)) [EvExit (Raises e)]).
Proof.
  intros Hc Hfr. apply (shape_refused _ _ (Raises e)); [done|].
  simpl. by rewrite (shape_waiting_inv c).
Qed.

Lemma shape_start (c : task) :
  shape settings c → fr c = Created → shape settings (advance c Acquiring []).
Proof.
  intros Hc Hfr. apply shape_waiting; [by right|].
  simpl. by rewrite (shape_waiting_inv c) by auto.
Qed.

(** Every step of the event loop keeps the logs in shape and the permits
    accounted for. *)
Lemma step_invariant (s s' : state) (a : action) :
  step settings s a = Some s' → invariant settings s → invariant settings s'.
Proof.
  intros Hstep [Hshape Hacc]. destruct a as [k b| |t|t|t i]; simpl in Hstep.
  - (* Arrive *)
    simplify_eq. split; [|by apply accounted_arrive].
    simpl. apply Forall_app. split; [done|]. constructor; [|done].
    apply shape_waiting; auto.
  - (* QueueStatus *)
    destruct (get_semaphore settings s) as [[sem s0]|e] eqn:Hget; simplify_eq; [|done].
    destruct (get_semaphore_tasks _ _ _ _ Hget) as [Htasks _].
    split; [by rewrite Htasks | by eapply accounted_get_semaphore].
  - (* Start *)
    destruct (tasks s !! t) as [c|] eqn:Ht; simplify_eq/=.
    pose proof (Forall_lookup_1 _ _ _ _ Hshape Ht) as Hc.
    destruct (fr c) eqn:Hfr; simplify_eq.
    destruct (get_semaphore settings s) as [[sem s0]|e] eqn:Hget; simplify_eq.
    + destruct (get_semaphore_tasks _ _ _ _ Hget) as [Htasks Hsem].
      pose proof (accounted_get_semaphore _ _ _ _ Hget Hacc) as Hacc0.
      split.
      * simpl. rewrite Htasks. apply Forall_insert; [done|]. by apply shape_start.
      * eapply accounted_same_side; [done| by rewrite Htasks | | done].
        unfold holds_permit. simpl. by rewrite Hfr.
    + split.
      * simpl. apply Forall_insert; [done|]. apply shape_refuse; auto.
      * apply accounted_dormant; [by eapply get_semaphore_raises|done|done].
  - (* Grant *)
    destruct (tasks s !! t) as [c|] eqn:Ht; simplify_eq/=.
    pose proof (Forall_lookup_1 _ _ _ _ Hshape Ht) as Hc.
    destruct (fr c) eqn:Hfr; simplify_eq.
    destruct (_inference_semaphore s) as [sem|] eqn:Hsem; simplify_eq/=.
    destruct (acquire sem) as [sem'|] eqn:Hacq; simplify_eq/=.
    destruct (block_enter settings (kind c) (body c)) as [events p] eqn:Henter.
    simplify_eq. split.
    + simpl. apply Forall_insert; [done|]. by apply shape_enter.
    + eapply accounted_acquire; try done. unfold holds_permit. by rewrite Hfr.
  - (* Resume *)
    destruct (tasks s !! t) as [c|] eqn:Ht; simplify_eq/=.
    pose proof (Forall_lookup_1 _ _ _ _ Hshape Ht) as Hc.
    destruct (fr c) eqn:Hfr; simplify_eq.
    + (* cancelled while queued *)
      destruct i; simplify_eq.
      destruct (semaphore_exists settings s t c Hacc Ht) as [sem Hsem].
      { unfold dormant. rewrite Hfr. tauto. }
      split.
      * simpl. apply Forall_insert; [done|]. apply shape_refuse; auto.
      * eapply accounted_same_side; [done|done| |done].
        unfold holds_permit. simpl. by rewrite Hfr.
    + destruct (block_resume p i) as [[events [p'|o]]|] eqn:Hres; simplify_eq/=.
      * split.
        -- simpl. apply Forall_insert; [done|]. by eapply shape_suspend.
        -- destruct (semaphore_exists settings s t c Hacc Ht) as [sem Hsem].
           { unfold dormant. rewrite Hfr. tauto. }
           eapply accounted_same_side; [done|done| |done].
           unfold holds_permit. simpl. by rewrite Hfr.
      * destruct (_inference_semaphore s) as [sem|] eqn:Hsem; simplify_eq/=.
        split.
        -- simpl. apply Forall_insert; [done|]. by eapply shape_exit.
        -- eapply accounted_release; try done. unfold holds_permit. by rewrite Hfr.
Qed.

Lemma reachable_invariant (s : state) : reachable settings s → invariant settings s.
Proof.
  induction 1 as [|s a s' _ IH Hstep].
  - split; [by constructor|]. unfold accounted. simpl. by constructor.
  - by eapply step_invariant.
Qed.

Lemma run_reachable (schedule : list action) (s s' : state) :
  reachable settings s → run settings s schedule = Some s' → reachable settings s'.
Proof.
  revert s. induction schedule as [|a schedule IH]; intros s Hs Hrun; simplify_eq/=.
  - done.
  - destruct (step settings s a) as [s0|] eqn:Hstep; simplify_eq/=.
    eapply IH; [|done]. by eapply reachable_step.
Qed.

End Shape.

(** Discharges [reachable settings s] for the state a schedule leads to. *)
Ltac reach_by schedule :=
  apply (run_reachable _ schedule initial);
  [ apply reachable_initial | vm_compute; reflexivity ].

(** ** Reading the logs of a state in shape *)

Lemma acquires_app (l1 l2 : list event) : acquires (l1 ++ l2) = (acquires l1 + acquires l2)%nat.
Proof. unfold acquires. by rewrite filter_app, length_app. Qed.

Lemma releases_app (l1 l2 : list event) : releases (l1 ++ l2) = (releases l1 + releases l2)%nat.
Proof. unfold releases. by rewrite filter_app, length_app. Qed.

Lemma acquires_chunk_events (cs : list chunk) : acquires (chunk_events cs) = 0%nat.
Proof. induction cs as [|c cs IH]; [done|]. apply IH. Qed.

Lemma releases_chunk_events (cs : list chunk) : releases (chunk_events cs) = 0%nat.
Proof. induction cs as [|c cs IH]; [done|]. apply IH. Qed.

Lemma received_app (l1 l2 : list event) : received (l1 ++ l2) = received l1 ++ received l2.
Proof. apply omap_app. Qed.

Lemma yielded_app (l1 l2 : list event) : yielded (l1 ++ l2) = yielded l1 ++ yielded l2.
Proof. apply omap_app. Qed.

Lemma received_chunk_events (cs : list chunk) : received (chunk_events cs) = cs.
Proof. induction cs as [|c cs IH]; [done|]. simpl. by rewrite <- IH at 2. Qed.

Lemma yielded_chunk_events (cs : list chunk) : yielded (chunk_events cs) = cs.
Proof. induction cs as [|c cs IH]; [done|]. simpl. by rewrite <- IH at 2. Qed.

Lemma gated_chunk_events (held : bool) (cs : list chunk) (rest : list event) :
  gated_from held (chunk_events cs ++ rest) = gated_from held rest.
Proof. induction cs as [|c cs IH]; [done|]. apply IH. Qed.

Lemma holder_in_flight (s : state) (t : nat) (c : task) :
  tasks s !! t = Some c → holds_permit c = true → (1 ≤ in_flight s)%nat.
Proof.
  intros Ht Hc. unfold in_flight.
  assert (c ∈ filter (fun c => holds_permit c = true) (tasks s)) as Hin.
  { apply list_elem_of_filter. split; [done|]. by eapply list_elem_of_lookup_2. }
  destruct (filter _ (tasks s)); [by apply elem_of_nil in Hin | simpl; lia].
Qed.

Section Accounting.
Context (settings : Settings).

Lemma shape_counts (c : task) :
  shape settings c →
  (acquires (log c) ≤ 1)%nat
  ∧ releases (log c) = (if holds_permit c then 0 else acquires (log c))%nat.
Proof.
  unfold holds_permit.
  intros [[Hw|Hw] Hlog|o Hf Hlog|p cs Hf Hok Hlog|o cs Hf _ Hlog]; rewrite Hlog.
  - rewrite Hw. split; [compute; lia | done].
  - rewrite Hw. split; [compute; lia | done].
  - rewrite Hf. split; [compute; lia | done].
  - rewrite Hf, acquires_app, releases_app, acquires_chunk_events, releases_chunk_events.
    split; [compute; lia | done].
  - rewrite Hf, !acquires_app, !releases_app, acquires_chunk_events, releases_chunk_events.
    split; [compute; lia | done].
Qed.

Lemma shape_gated (c : task) : shape settings c → gated (log c).
Proof.
  unfold gated.
  intros [[Hw|Hw] Hlog|o Hf Hlog|p cs Hf Hok Hlog|o cs Hf _ Hlog]; rewrite Hlog; try done.
  - unfold opened. simpl. by rewrite <- (app_nil_r (chunk_events cs)), gated_chunk_events.
  - unfold opened. simpl. by rewrite gated_chunk_events.
Qed.

Lemma shape_passes_through (c : task) :
  shape settings c → yielded (log c) = received (log c).
Proof.
  intros [[Hw|Hw] Hlog|o Hf Hlog|p cs Hf Hok Hlog|o cs Hf _ Hlog]; rewrite Hlog; try done.
  - by rewrite yielded_app, received_app, yielded_chunk_events, received_chunk_events.
  - by rewrite !yielded_app, !received_app, yielded_chunk_events, received_chunk_events.
Qed.

(** A step that makes a coroutine hold a permit is the return of its
    [acquire()]. *)
Lemma step_new_holder (s s' : state) (a : action) (t : nat) (c' : task) :
  step settings s a = Some s' →
  tasks s' !! t = Some c' → holds_permit c' = true →
  (∃ c, tasks s !! t = Some c ∧ holds_permit c = true) ∨ a = Grant t.
Proof.
  intros Hstep Ht' Hc'. destruct a as [k b| |u|u|u i]; simpl in Hstep.
  - simplify_eq/=. left. apply lookup_app_Some in Ht' as [Ht'|[_ Ht']]; [by eauto|].
    apply list_lookup_singleton_Some in Ht' as [_ <-]. done.
  - left. destruct (get_semaphore settings s) as [[sem s0]|e] eqn:Hget; simplify_eq; [|by eauto].
    destruct (get_semaphore_tasks _ _ _ _ Hget) as [Htasks _]. rewrite Htasks in Ht'. eauto.
  - left. destruct (tasks s !! u) as [c|] eqn:Hu; simplify_eq/=.
    destruct (fr c) eqn:Hfr; simplify_eq.
    destruct (get_semaphore settings s) as [[sem s0]|e] eqn:Hget; simplify_eq/=.
    + destruct (get_semaphore_tasks _ _ _ _ Hget) as [Htasks _]. rewrite Htasks in Ht'.
      destruct (decide (u = t)) as [->|Hne].
      * rewrite list_lookup_insert_eq in Ht' by by eapply lookup_lt_Some. by simplify_eq.
      * rewrite list_lookup_insert_ne in Ht' by done. eauto.
    + destruct (decide (u = t)) as [->|Hne].
      * rewrite list_lookup_insert_eq in Ht' by by eapply lookup_lt_Some. by simplify_eq.
      * rewrite list_lookup_insert_ne in Ht' by done. eauto.
  - destruct (decide (u = t)) as [->|Hne]; [by right|left].
    destruct (tasks s !! u) as [c|] eqn:Hu; simplify_eq/=.
    destruct (fr c) eqn:Hfr; simplify_eq.
    destruct (_inference_semaphore s) as [sem|] eqn:Hsem; simplify_eq/=.
    destruct (acquire sem) as [sem'|] eqn:Hacq; simplify_eq/=.
    destruct (block_enter settings (kind c) (body c)) as [events p] eqn:Henter.
    simplify_eq/=. rewrite list_lookup_insert_ne in Ht' by done. eauto.
  - left. destruct (tasks s !! u) as [c|] eqn:Hu; simplify_eq/=.
    destruct (decide (u = t)) as [->|Hne].
    + destruct (fr c) eqn:Hfr; simplify_eq.
      * destruct i; simplify_eq/=.
        rewrite list_lookup_insert_eq in Ht' by by eapply lookup_lt_Some. by simplify_eq.
      * exists c. split; [done|]. unfold holds_permit. by rewrite Hfr.
    + destruct (fr c) eqn:Hfr; simplify_eq.
      * destruct i; simplify_eq/=. rewrite list_lookup_insert_ne in Ht' by done. eauto.
      * destruct (block_resume p i) as [[events [p'|o]]|] eqn:Hres; simplify_eq/=.
        -- rewrite list_lookup_insert_ne in Ht' by done. eauto.
        -- destruct (_inference_semaphore s) as [sem|] eqn:Hsem; simplify_eq/=.
           rewrite list_lookup_insert_ne in Ht' by done. eauto.
Qed.

(** [acquire()] returns for a queued coroutine as soon as the counter is
    positive, and the coroutine then holds a permit. *)
Lemma grant_enabled (s : state) (t : nat) (c : task) (sem : Semaphore) :
  tasks s !! t = Some c → fr c = Acquiring →
  _inference_semaphore s = Some sem → (0 < _value sem)%Z →
  ∃ s' c', step settings s (Grant t) = Some s'
    ∧ tasks s' !! t = Some c' ∧ holds_permit c' = true
    ∧ available_slots s' = Some (_value sem - 1)%Z.
Proof.
  intros Ht Hfr Hsem Hpos. simpl. rewrite Ht. simpl. rewrite Hfr, Hsem. simpl.
  unfold acquire. destruct (0 <? _value sem)%Z eqn:E; [|lia]. simpl.
  destruct (block_enter settings (kind c) (body c)) as [events p] eqn:Henter.
  eexists _, (advance c (Inside p) (EvAcquire :: events)).
  split; [reflexivity|]. split; [|done].
  simpl. apply list_lookup_insert_eq. by eapply lookup_lt_Some.
Qed.

(** Leaving the [async with] block gives the permit back, whatever the
    outcome. *)
Lemma exit_releases (s : state) (t : nat) (c : task) (p : point) (i : input)
    (events : list event) (o : result Json) :
  invariant settings s →
  tasks s !! t = Some c → fr c = Inside p →
  block_resume p i = Some (events, Exit o) →
  ∃ s' c', step settings s (Resume t i) = Some s'
    ∧ tasks s' !! t = Some c' ∧ fr c' = Finished o
    ∧ acquires (log c') = 1%nat ∧ releases (log c') = 1%nat
    ∧ available_slots s' = Z.succ <$> available_slots s.
Proof.
  intros [Hshape Hacc] Ht Hfr Hres.
  destruct (semaphore_exists settings s t c Hacc Ht) as [sem Hsem].
  { unfold dormant. rewrite Hfr. tauto. }
  pose proof (Forall_lookup_1 _ _ _ _ Hshape Ht) as Hc.
  pose proof (shape_exit settings c p i events o Hc Hfr Hres) as Hc'.
  destruct (shape_counts _ Hc') as [_ Hrel].
  simpl. rewrite Ht. simpl. rewrite Hfr, Hres. simpl. rewrite Hsem. simpl.
  eexists _, (advance c (Finished o) (events ++ [EvRelease; EvExit o])).
  split; [reflexivity|]. split.
  { simpl. apply list_lookup_insert_eq. by eapply lookup_lt_Some. }
  split; [done|].
  assert (acquires (log (advance c (Finished o) (events ++ [EvRelease; EvExit o]))) = 1%nat)
    as Hone.
  { destruct (shape_inside_inv settings c p Hc Hfr) as (cs & _ & Hlog).
    simpl. rewrite Hlog, (block_resume_exit_silent _ _ _ _ Hres).
    by rewrite !acquires_app, acquires_chunk_events. }
  split; [exact Hone|]. split; [rewrite Hrel; exact Hone|].
  unfold available_slots. simpl. by rewrite Hsem.
Qed.

End Accounting.

(** ** The admission gate *)

(** The event loop never forgets a coroutine. *)
Lemma step_keeps_tasks (settings : Settings) (s s' : state) (a : action) (t : nat) (c : task) :
  step settings s a = Some s' → tasks s !! t = Some c → ∃ c', tasks s' !! t = Some c'.
Proof.
  intros Hstep Ht. apply lookup_lt_is_Some. apply lookup_lt_Some in Ht.
  enough (length (tasks s) ≤ length (tasks s'))%nat by lia. clear t c Ht.
  destruct a as [k b| |u|u|u i]; simpl in Hstep.
  - simplify_eq/=. rewrite length_app. lia.
  - destruct (get_semaphore settings s) as [[sem s0]|e] eqn:Hget; simplify_eq; [|done].
    destruct (get_semaphore_tasks _ _ _ _ Hget) as [-> _]. done.
  - destruct (tasks s !! u) as [c|]; simplify_eq/=. destruct (fr c); simplify_eq.
    destruct (get_semaphore settings s) as [[sem s0]|e] eqn:Hget; simplify_eq/=.
    + destruct (get_semaphore_tasks _ _ _ _ Hget) as [-> _]. by rewrite length_insert.
    + by rewrite length_insert.
  - destruct (tasks s !! u) as [c|]; simplify_eq/=. destruct (fr c); simplify_eq.
    destruct (_inference_semaphore s) as [sem|]; simplify_eq/=.
    destruct (acquire sem); simplify_eq/=.
    destruct (block_enter settings (kind c) (body c)). simplify_eq/=.
    by rewrite length_insert.
  - destruct (tasks s !! u) as [c|]; simplify_eq/=. destruct (fr c); simplify_eq.
    + destruct i; simplify_eq/=. by rewrite length_insert.
    + destruct (block_resume p i) as [[events [p'|o]]|]; simplify_eq/=.
      * by rewrite length_insert.
      * destruct (_inference_semaphore s) as [sem|]; simplify_eq/=.
        by rewrite length_insert.
Qed.

(** With every permit taken, a coroutine that holds none gets one only after
    a step that brought the number of calls in flight down. *)
Lemma enters_after_completion (settings : Settings) (schedule : list action)
    (s s' : state) (t : nat) (c c' : task) :
  reachable settings s →
  Z.of_nat (in_flight s) = max_concurrent_requests settings →
  run settings s schedule = Some s' →
  tasks s !! t = Some c → holds_permit c = false →
  tasks s' !! t = Some c' → holds_permit c' = true →
  ∃ before a after s1 s2,
    schedule = before ++ a :: after
    ∧ run settings s before = Some s1
    ∧ step settings s1 a = Some s2
    ∧ (in_flight s2 < in_flight s1)%nat.
Proof.
  revert s c. induction schedule as [|a schedule IH]; intros s c Hreach Hfull Hrun Ht Hc Ht' Hc'.
  - simplify_eq/=. congruence.
  - simpl in Hrun. destruct (step settings s a) as [s1|] eqn:Hstep; simplify_eq/=.
    assert (reachable settings s1) as Hreach1 by by eapply reachable_step.
    destruct (decide (in_flight s1 < in_flight s)%nat) as [Hdown|Hsame].
    { exists [], a, schedule, s, s1. by split_and!. }
    assert (Z.of_nat (in_flight s1) = max_concurrent_requests settings) as Hfull1.
    { destruct (reachable_invariant _ _ Hreach1) as [_ Hacc1]. unfold accounted in Hacc1.
      destruct (_inference_semaphore s1) as [sem1|].
      - destruct Hacc1. lia.
      - pose proof (dormant_in_flight _ Hacc1) as Hzero.
        unfold in_flight in *. lia. }
    destruct (step_keeps_tasks settings s s1 a t c Hstep Ht) as [c1 Ht1].
    assert (holds_permit c1 = false) as Hc1.
    { destruct (holds_permit c1) eqn:E; [|done].
      destruct (step_new_holder settings s s1 a t c1 Hstep Ht1 E) as [(c0 & ? & ?)| ->].
      - congruence.
      - exfalso. simpl in Hstep. rewrite Ht in Hstep. simpl in Hstep.
        destruct (fr c); simplify_eq.
        destruct (_inference_semaphore s) as [sem|] eqn:Hsem; simplify_eq/=.
        destruct (reachable_invariant _ _ Hreach) as [_ Hacc]. unfold accounted in Hacc.
        rewrite Hsem in Hacc. destruct Hacc as [? ?].
        unfold acquire in Hstep. destruct (0 <? _value sem)%Z eqn:E'; [lia|done]. }
    destruct (IH s1 c1 Hreach1 Hfull1 Hrun Ht1 Hc1 Ht' Hc')
      as (before & a' & after & s2 & s3 & -> & Hbefore & Hstep' & Hdown).
    exists (a :: before), a', after, s2, s3. split_and!; try done.
    simpl. by rewrite Hstep.
Qed.

(** C1: with a positive configured capacity, at most that many
    chat-completion calls, unary and streaming together, hold a permit; while
    that many do, no [acquire()] returns and no step of the event loop lets
    another call in; and it is only the capacity that keeps a call queued. *)
Theorem at_most_max_in_flight (settings : Settings) (s : state) :
  (0 < max_concurrent_requests settings)%Z →
  reachable settings s →
  (Z.of_nat (in_flight s) ≤ max_concurrent_requests settings)%Z
  ∧ (Z.of_nat (in_flight s) = max_concurrent_requests settings →
      (∀ t, step settings s (Grant t) = None)
      ∧ (∀ a s' t c', step settings s a = Some s' →
           tasks s' !! t = Some c' → holds_permit c' = true →
           ∃ c, tasks s !! t = Some c ∧ holds_permit c = true))
  ∧ (Z.of_nat (in_flight s) = max_concurrent_requests settings →
      ∀ schedule s' t c c',
        run settings s schedule = Some s' →
        tasks s !! t = Some c → holds_permit c = false →
        tasks s' !! t = Some c' → holds_permit c' = true →
        ∃ before a after s1 s2,
          schedule = before ++ a :: after
          ∧ run settings s before = Some s1
          ∧ step settings s1 a = Some s2
          ∧ (in_flight s2 < in_flight s1)%nat)
  ∧ ((Z.of_nat (in_flight s) < max_concurrent_requests settings)%Z →
      ∀ t, queued s t →
        ∃ s' c', step settings s (Grant t) = Some s'
          ∧ tasks s' !! t = Some c' ∧ holds_permit c' = true).
Proof.
  intros Hpos Hreach. destruct (reachable_invariant _ _ Hreach) as [Hshape Hacc].
  assert (∀ sem, _inference_semaphore s = Some sem →
            (0 ≤ _value sem)%Z
            ∧ (_value sem + Z.of_nat (in_flight s))%Z = max_concurrent_requests settings)
    as Hsome.
  { intros sem Hsem. unfold accounted in Hacc. by rewrite Hsem in Hacc. }
  assert (∀ t, Z.of_nat (in_flight s) = max_concurrent_requests settings →
            step settings s (Grant t) = None) as Hfull.
  { intros t Hn. simpl. destruct (tasks s !! t) as [c|]; [|done]. simpl.
    destruct (fr c); try done.
    destruct (_inference_semaphore s) as [sem|] eqn:Hsem; [|done]. simpl.
    destruct (Hsome sem eq_refl) as [? ?]. unfold acquire.
    destruct (0 <? _value sem)%Z eqn:E; [lia|done]. }
  split_and!.
  - destruct (_inference_semaphore s) as [sem|] eqn:Hsem.
    + destruct (Hsome sem eq_refl). lia.
    + unfold accounted in Hacc. rewrite Hsem in Hacc.
      unfold in_flight. rewrite dormant_in_flight by done. lia.
  - intros Hn. split; [by auto|].
    intros a s' t c' Hstep Ht' Hc'.
    destruct (step_new_holder settings s s' a t c' Hstep Ht' Hc') as [Hold | ->]; [done|].
    by rewrite Hfull in Hstep.
  - intros Hn schedule s' t c c'. by apply enters_after_completion.
  - intros Hn t (c & Ht & Hfr).
    destruct (semaphore_exists settings s t c Hacc Ht) as [sem Hsem].
    { unfold dormant. rewrite Hfr. tauto. }
    destruct (Hsome sem Hsem) as [? ?].
    destruct (grant_enabled settings s t c sem Ht Hfr Hsem) as (s' & c' & ? & ? & ? & _);
      [lia|]. by exists s', c'.
Qed.

Lemma at_most_max_in_flight_witness :
  (Z.of_nat (in_flight busy_state) ≤ max_concurrent_requests one_slot)%Z
  ∧ (Z.of_nat (in_flight busy_state) = max_concurrent_requests one_slot →
      (∀ t, step one_slot busy_state (Grant t) = None)
      ∧ (∀ a s' t c', step one_slot busy_state a = Some s' →
           tasks s' !! t = Some c' → holds_permit c' = true →
           ∃ c, tasks busy_state !! t = Some c ∧ holds_permit c = true))
  ∧ (Z.of_nat (in_flight busy_state) = max_concurrent_requests one_slot →
      ∀ schedule s' t c c',
        run one_slot busy_state schedule = Some s' →
        tasks busy_state !! t = Some c → holds_permit c = false →
        tasks s' !! t = Some c' → holds_permit c' = true →
        ∃ before a after s1 s2,
          schedule = before ++ a :: after
          ∧ run one_slot busy_state before = Some s1
          ∧ step one_slot s1 a = Some s2
          ∧ (in_flight s2 < in_flight s1)%nat)
  ∧ ((Z.of_nat (in_flight busy_state) < max_concurrent_requests one_slot)%Z →
      ∀ t, queued busy_state t →
        ∃ s' c', step one_slot busy_state (Grant t) = Some s'
          ∧ tasks s' !! t = Some c' ∧ holds_permit c' = true).
Proof.
  apply (at_most_max_in_flight one_slot busy_state).
  - reflexivity.
  - reach_by busy_schedule.
Defined.

(** The example of capacity two: of three calls that arrive together two are
    let in, the third is not while both are in flight, and it is as soon as
    one of them has its response. *)
Example third_call_waits :
  in_flight <$> run two_slots initial three_calls = Some 2%nat
  ∧ run two_slots initial (three_calls ++ [Grant 2]) = None
  ∧ in_flight <$> run two_slots initial
                    (three_calls ++ [Resume 0 (Responded ok_response); Grant 2])
    = Some 2%nat.
Proof. by vm_compute. Qed.

(** The example of the backend's 500: the relay raises, and the permit is
    back in the semaphore for the next call. *)
Example permit_back_after_error :
  available_slots <$> run one_slot initial
                        [ chat_completions_call one_slot unary_request; Start 0; Grant 0 ]
  = Some (Some 0%Z)
  ∧ available_slots <$> run one_slot initial
                          [ chat_completions_call one_slot unary_request; Start 0; Grant 0;
                            Resume 0 (Responded oom_response) ]
    = Some (Some 1%Z).
Proof. by vm_compute. Qed.

Lemma step_suspend (settings : Settings) (s : state) (t : nat) (c : task)
    (p p' : point) (i : input) (events : list event) :
  tasks s !! t = Some c → fr c = Inside p →
  block_resume p i = Some (events, Suspend p') →
  step settings s (Resume t i) = Some (set_task t (advance c (Inside p') events) s).
Proof. intros Ht Hfr Hres. simpl. rewrite Ht. simpl. by rewrite Hfr, Hres. Qed.

Lemma step_exit (settings : Settings) (s : state) (t : nat) (c : task) (sem : Semaphore)
    (p : point) (i : input) (events : list event) (o : result Json) :
  tasks s !! t = Some c → fr c = Inside p →
  _inference_semaphore s = Some sem →
  block_resume p i = Some (events, Exit o) →
  step settings s (Resume t i)
  = Some (set_task t (advance c (Finished o) (events ++ [EvRelease; EvExit o]))
            (set_semaphore (release sem) s)).
Proof.
  intros Ht Hfr Hsem Hres. simpl. rewrite Ht. simpl. rewrite Hfr, Hres. simpl.
  by rewrite Hsem.
Qed.

Lemma lookup_set_task (t : nat) (c c' : task) (s : state) :
  tasks s !! t = Some c → tasks (set_task t c' s) !! t = Some c'.
Proof. intros Ht. simpl. apply list_lookup_insert_eq. by eapply lookup_lt_Some. Qed.



(** A step of another coroutine, an arrival or a look at the queue leaves a
    coroutine as it is. *)
Lemma step_keeps_others (settings : Settings) (s s' : state) (a : action) (t : nat) (c : task) :
  step settings s a = Some s' → target a ≠ Some t →
  tasks s !! t = Some c → tasks s' !! t = Some c.
Proof.
  intros Hstep Hother Ht. destruct a as [k b| |u|u|u i]; simpl in Hstep, Hother.
  - simplify_eq/=. by apply lookup_app_l_Some.
  - destruct (get_semaphore settings s) as [[sem s0]|e] eqn:Hget; simplify_eq; [|done].
    by destruct (get_semaphore_tasks _ _ _ _ Hget) as [-> _].
  - assert (u ≠ t) as Hne by congruence.
    destruct (tasks s !! u) as [cu|]; simplify_eq/=. destruct (fr cu); simplify_eq.
    destruct (get_semaphore settings s) as [[sem s0]|e] eqn:Hget; simplify_eq/=.
    + destruct (get_semaphore_tasks _ _ _ _ Hget) as [-> _].
      by rewrite list_lookup_insert_ne.
    + by rewrite list_lookup_insert_ne.
  - assert (u ≠ t) as Hne by congruence.
    destruct (tasks s !! u) as [cu|]; simplify_eq/=. destruct (fr cu); simplify_eq.
    destruct (_inference_semaphore s) as [sem|]; simplify_eq/=.
    destruct (acquire sem); simplify_eq/=.
    destruct (block_enter settings (kind cu) (body cu)). simplify_eq/=.
    by rewrite list_lookup_insert_ne.
  - assert (u ≠ t) as Hne by congruence.
    destruct (tasks s !! u) as [cu|]; simplify_eq/=. destruct (fr cu); simplify_eq.
    + destruct i; simplify_eq/=. by rewrite list_lookup_insert_ne.
    + destruct (block_resume p i) as [[events [p'|o]]|]; simplify_eq/=.
      * by rewrite list_lookup_insert_ne.
      * destruct (_inference_semaphore s) as [sem|]; simplify_eq/=.
        by rewrite list_lookup_insert_ne.
Qed.

Lemma run_keeps_others (settings : Settings) (schedule : list action) (s s' : state)
    (t : nat) (c : task) :
  Forall (fun a => target a ≠ Some t) schedule →
  run settings s schedule = Some s' →
  tasks s !! t = Some c → tasks s' !! t = Some c.
Proof.
  revert s. induction schedule as [|a schedule IH]; intros s Hall Hrun Ht; simplify_eq/=.
  - done.
  - apply Forall_cons in Hall as [Ha Hall].
    destruct (step settings s a) as [s1|] eqn:Hstep; simplify_eq/=.
    eapply IH; [done|done|]. by eapply step_keeps_others.
Qed.

(** The step that leaves the block: the log gets the release and the exit,
    and the slot is free again. *)
Lemma exit_step (settings : Settings) (s : state) (t : nat) (c : task) (p : point)
    (i : input) (o : result Json) :
  invariant settings s →
  tasks s !! t = Some c → fr c = Inside p →
  block_resume p i = Some ([], Exit o) →
  ∃ s' c', step settings s (Resume t i) = Some s'
    ∧ tasks s' !! t = Some c' ∧ fr c' = Finished o
    ∧ log c' = log c ++ [EvRelease; EvExit o]
    ∧ releases (log c') = 1%nat
    ∧ available_slots s' = Z.succ <$> available_slots s.
Proof.
  intros Hinv Ht Hfr Hres.
  destruct (exit_releases settings s t c p i [] o Hinv Ht Hfr Hres)
    as (s' & c' & Hstep & Ht' & Hfr' & _ & Hrel & Hav).
  exists s', c'. split_and!; try done.
  destruct Hinv as [_ Hacc].
  destruct (semaphore_exists settings s t c Hacc Ht) as [sem Hsem].
  { unfold dormant. rewrite Hfr. tauto. }
  rewrite (step_exit settings s t c sem p i [] o Ht Hfr Hsem Hres) in Hstep.
  injection Hstep as <-. rewrite (lookup_set_task t c) in Ht' by done.
  by injection Ht' as <-.
Qed.

(** C3, as amended: a streaming call's log is empty until its [acquire()]
    returns. From then on, while the generator is suspended anywhere in the
    block - waiting for the headers, for a chunk, or at a [yield] - its log
    is the acquire, the request and the chunks forwarded so far, with no
    release; the permit is missing from the semaphore; a resume that stays
    in the block leaves the counter alone. The permit is given back exactly
    once, in the step in which the generator leaves the block: when the
    chunks are exhausted, when the backend answers an error status, or when
    an exception - a network error, a cancellation, the [GeneratorExit] of
    [aclose()] - is thrown into it at whatever point it is suspended; that
    step ends the log with the release and the exit and frees one slot. A
    generator that nobody resumes or closes stays where it is, with its
    permit, whatever the other coroutines do. Once finished, the log holds
    the one release followed by the exit. *)
Theorem stream_holds_permit (settings : Settings) (s : state) (t : nat) (c : task) :
  reachable settings s → tasks s !! t = Some c → kind c = Stream →
  match fr c with
  | Created | Acquiring => log c = []
  | Inside p =>
      (∃ cs, log c
             = EvAcquire :: EvBackend "POST" (chat_url settings) (body c) :: chunk_events cs)
      ∧ releases (log c) = 0%nat
      ∧ (∃ sem, _inference_semaphore s = Some sem
                ∧ (0 ≤ _value sem < max_concurrent_requests settings)%Z)
      ∧ (∀ i events p', block_resume p i = Some (events, Suspend p') →
           ∃ s' c', step settings s (Resume t i) = Some s'
             ∧ tasks s' !! t = Some c' ∧ fr c' = Inside p'
             ∧ releases (log c') = 0%nat
             ∧ available_slots s' = available_slots s)
      ∧ (∀ i o, block_resume p i = Some ([], Exit o) →
           ∃ s' c', step settings s (Resume t i) = Some s'
             ∧ tasks s' !! t = Some c' ∧ fr c' = Finished o
             ∧ log c' = log c ++ [EvRelease; EvExit o]
             ∧ releases (log c') = 1%nat
             ∧ available_slots s' = Z.succ <$> available_slots s)
      ∧ (∀ e, block_resume p (Throw e) = Some ([], Exit (Raises e)))
      ∧ (p = AwaitChunk → block_resume p EndOfStream = Some ([], Exit (Returns JNull)))
      ∧ (p = AwaitStream → ∀ response, is_success response = false →
           block_resume p (Responded response)
           = Some ([], Exit (Raises (HTTPStatusError (status_message response) response))))
      ∧ (∀ schedule s', Forall (fun a => target a ≠ Some t) schedule →
           run settings s schedule = Some s' → tasks s' !! t = Some c)
  | Finished o =>
      log c = [EvExit o]
      ∨ ∃ cs, log c
              = EvAcquire :: EvBackend "POST" (chat_url settings) (body c)
                  :: chunk_events cs ++ [EvRelease; EvExit o]
  end.
Proof.
  intros Hreach Ht Hk. pose proof (reachable_invariant _ _ Hreach) as Hinv.
  destruct Hinv as [Hshape Hacc].
  pose proof (Forall_lookup_1 _ _ _ _ Hshape Ht) as Hc.
  destruct (fr c) as [| |p|o] eqn:Hfr.
  - apply (shape_waiting_inv settings); auto.
  - apply (shape_waiting_inv settings); auto.
  - destruct (shape_inside_inv settings c p Hc Hfr) as (cs & Hok & Hlog).
    assert (holds_permit c = true) as Hholds by (unfold holds_permit; by rewrite Hfr).
    split_and!.
    + by exists cs.
    + destruct (shape_counts settings c Hc) as [_ Hrel]. by rewrite Hholds in Hrel.
    + destruct (semaphore_exists settings s t c Hacc Ht) as [sem Hsem].
      { unfold dormant. rewrite Hfr. tauto. }
      exists sem. split; [done|]. unfold accounted in Hacc. rewrite Hsem in Hacc.
      pose proof (holder_in_flight s t c Ht Hholds). lia.
    + intros i events p' Hres.
      pose proof (shape_suspend settings c p p' i events Hc Hfr Hres) as Hc'.
      eexists _, (advance c (Inside p') events).
      split; [by eapply step_suspend|]. split; [by apply (lookup_set_task t c)|].
      split; [done|]. split; [|done].
      destruct (shape_counts settings _ Hc') as [_ Hrel]. exact Hrel.
    + intros i o Hres. by apply (exit_step settings s t c p).
    + apply block_resume_throw.
    + by intros ->.
    + intros -> response Hfail. simpl. unfold raise_for_status. by rewrite Hfail.
    + intros schedule s' Hall Hrun. by eapply run_keeps_others.
  - destruct Hc as [[Hw|Hw] _|o' Hf Hlog|p' cs Hf _ _|o' cs Hf _ Hlog]; try congruence.
    + left. congruence.
    + right. exists cs. rewrite Hlog. rewrite Hfr in Hf. by injection Hf as ->.
Qed.

Lemma stream_holds_permit_witness :
  reachable one_slot busy_state
  ∧ releases [ EvAcquire;
               EvBackend "POST" "http://127.0.0.1:8080/v1/chat/completions"
                 (JsonContent (request_body one_slot stream_request)) ] = 0%nat
  ∧ (∃ sem, _inference_semaphore busy_state = Some sem
            ∧ (0 ≤ _value sem < max_concurrent_requests one_slot)%Z)
  ∧ (∃ s' c', step one_slot busy_state (Resume 0 EndOfStream) = Some s'
       ∧ tasks s' !! 0%nat = Some c' ∧ fr c' = Finished (Returns JNull)
       ∧ log c' = [ EvAcquire;
                    EvBackend "POST" "http://127.0.0.1:8080/v1/chat/completions"
                      (JsonContent (request_body one_slot stream_request)) ]
                  ++ [EvRelease; EvExit (Returns JNull)]
       ∧ releases (log c') = 1%nat
       ∧ available_slots s' = Z.succ <$> available_slots busy_state)
  ∧ (∃ s' c', step one_slot busy_state (Resume 0 (Throw CancelledError)) = Some s'
       ∧ tasks s' !! 0%nat = Some c' ∧ fr c' = Finished (Raises CancelledError)
       ∧ log c' = [ EvAcquire;
                    EvBackend "POST" "http://127.0.0.1:8080/v1/chat/completions"
                      (JsonContent (request_body one_slot stream_request)) ]
                  ++ [EvRelease; EvExit (Raises CancelledError)]
       ∧ releases (log c') = 1%nat
       ∧ available_slots s' = Z.succ <$> available_slots busy_state).
Proof.
  assert (reachable one_slot busy_state) as Hreach by reach_by busy_schedule.
  pose proof (stream_holds_permit one_slot busy_state 0 _ Hreach eq_refl eq_refl) as H.
  destruct H as (_ & Hnone & Hsem & _ & Hexit & Hthrow & Hend & _ & _).
  split; [exact Hreach|]. split; [exact Hnone|]. split; [exact Hsem|]. split.
  - exact (Hexit EndOfStream (Returns JNull) (Hend eq_refl)).
  - exact (Hexit (Throw CancelledError) (Raises CancelledError) (Hthrow CancelledError)).
Defined.

(** C3, as stated, fails: a generator whose consumer stopped pulling at a
    [yield] and did not close it is not released at that moment; it keeps
    its permit, and with one slot nobody else is let in, whatever the other
    coroutines do, until something is thrown into it. *)
Lemma parked_stream_keeps_permit :
  reachable one_slot parked_state
  ∧ (∃ c, tasks parked_state !! 0%nat = Some c ∧ kind c = Stream ∧ fr c = Inside AtYield)
  ∧ ∀ schedule s',
      Forall (fun a => target a ≠ Some 0%nat) schedule →
      run one_slot parked_state schedule = Some s' →
      ∃ c', tasks s' !! 0%nat = Some c'
        ∧ fr c' = Inside AtYield
        ∧ releases (log c') = 0%nat
        ∧ available_slots s' = Some 0%Z
        ∧ ∀ u, step one_slot s' (Grant u) = None.
Proof.
  assert (reachable one_slot parked_state) as Hreach by reach_by parked_schedule.
  split; [exact Hreach|]. split; [by eexists|].
  intros schedule s' Hall Hrun.
  pose proof (run_keeps_others one_slot schedule parked_state s' 0 _ Hall Hrun eq_refl) as Ht.
  eexists. split; [exact Ht|]. split; [done|]. split; [done|].
  assert (reachable one_slot s') as Hreach' by by eapply run_reachable.
  destruct (reachable_invariant _ _ Hreach') as [_ Hacc].
  destruct (semaphore_exists one_slot s' 0 _ Hacc Ht) as [sem Hsem]; [by intros []|].
  pose proof (holder_in_flight s' 0 _ Ht eq_refl) as Hone.
  unfold accounted in Hacc. rewrite Hsem in Hacc. destruct Hacc as [Hnn Hsum].
  change (max_concurrent_requests one_slot) with 1%Z in Hsum.
  assert (_value sem = 0%Z) as Hzero by lia.
  split.
  - unfold available_slots. rewrite Hsem. simpl. by rewrite Hzero.
  - intros u. simpl. destruct (tasks s' !! u) as [cu|]; [|done]. simpl.
    destruct (fr cu); try done. rewrite Hsem. simpl. unfold acquire.
    by rewrite Hzero.
Qed.

(** C4, as amended: every chat-completion call of the relay, unary or
    streaming, sends its request to the backend only while it holds a permit
    and has given the permit back once it is over; the generic passthrough
    route sends its request to the backend and never touches the gate. *)
Theorem relay_calls_gated (settings : Settings) (s : state) (t : nat) (c : task) :
  reachable settings s → tasks s !! t = Some c →
  gated (log c)
  ∧ (∀ o, fr c = Finished o → releases (log c) = acquires (log c))
  ∧ (∀ method path request_body answer,
       (proxy_fallback settings method path (Returns request_body) answer).1
       = [EvBackend method (llama_server_url settings +:+ "/v1/" +:+ path)
            (RawContent request_body)]).
Proof.
  intros Hreach Ht. destruct (reachable_invariant _ _ Hreach) as [Hshape _].
  pose proof (Forall_lookup_1 _ _ _ _ Hshape Ht) as Hc. split_and!.
  - by apply (shape_gated settings).
  - intros o Hfr. destruct (shape_counts settings c Hc) as [_ Hrel].
    unfold holds_permit in Hrel. by rewrite Hfr in Hrel.
  - done.
Qed.

Lemma relay_calls_gated_witness :
  gated [ EvAcquire;
          EvBackend "POST" "http://127.0.0.1:8080/v1/chat/completions"
            (JsonContent (request_body one_slot stream_request)) ]
  ∧ (∀ o, Inside AwaitChunk = Finished o →
       releases [ EvAcquire;
                  EvBackend "POST" "http://127.0.0.1:8080/v1/chat/completions"
                    (JsonContent (request_body one_slot stream_request)) ]
       = acquires [ EvAcquire;
                    EvBackend "POST" "http://127.0.0.1:8080/v1/chat/completions"
                      (JsonContent (request_body one_slot stream_request)) ])
  ∧ (∀ method path request_body answer,
       (proxy_fallback one_slot method path (Returns request_body) answer).1
       = [EvBackend method (llama_server_url one_slot +:+ "/v1/" +:+ path)
            (RawContent request_body)]).
Proof.
  refine (relay_calls_gated one_slot busy_state 0 _ _ eq_refl).
  reach_by busy_schedule.
Defined.

(** C4, as stated, fails: [POST /v1/completions] is served by the passthrough
    route, which forwards the prompt to the backend with no permit held. *)
Lemma passthrough_bypasses_gate :
  dispatch "POST" "/v1/completions" = Some (RouteProxyFallback "completions")
  ∧ (proxy_fallback default_settings "POST" "completions"
       (Returns prompt_bytes) (Returns completion_response)).1
    = [EvBackend "POST" "http://127.0.0.1:8080/v1/completions" (RawContent prompt_bytes)]
  ∧ ¬ gated (proxy_fallback default_settings "POST" "completions"
               (Returns prompt_bytes) (Returns completion_response)).1.
Proof. split; [reflexivity|]. split; [reflexivity|]. unfold gated. simpl. discriminate. Qed.

(** ** The stream *)

Lemma run_app (settings : Settings) (s : state) (l1 l2 : list action) :
  run settings s (l1 ++ l2) = s' ← run settings s l1; run settings s' l2.
Proof.
  revert s. induction l1 as [|a l1 IH]; intros s; simpl; [done|].
  destruct (step settings s a); simpl; [apply IH | done].
Qed.

(** Pulling the chunks [cs] one after the other: each is yielded as it
    arrives, and the semaphore is not touched. *)
Lemma run_chunks (settings : Settings) (cs : list chunk) (s : state) (t : nat) (c : task) :
  tasks s !! t = Some c → fr c = Inside AwaitChunk →
  ∃ s' c',
    run settings s (cs ≫= (fun ch => [Resume t (Chunk ch); Resume t Next])) = Some s'
    ∧ tasks s' !! t = Some c' ∧ fr c' = Inside AwaitChunk
    ∧ log c' = log c ++ chunk_events cs
    ∧ _inference_semaphore s' = _inference_semaphore s.
Proof.
  revert s c. induction cs as [|ch cs IH]; intros s c Ht Hfr.
  - exists s, c. by rewrite app_nil_r.
  - set (c1 := advance c (Inside AtYield) [EvReceived ch; EvYield ch]).
    set (c2 := advance c1 (Inside AwaitChunk) []).
    destruct (IH (set_task t c2 (set_task t c1 s)) c2) as (s' & c' & Hrun & Ht' & Hfr' & Hlog & Hsem).
    { apply (lookup_set_task t c1). by apply (lookup_set_task t c). }
    { done. }
    exists s', c'. split_and!; try done.
    + change (run settings s (Resume t (Chunk ch) :: Resume t Next
                :: cs ≫= (fun ch => [Resume t (Chunk ch); Resume t Next])) = Some s').
      cbn [run].
      rewrite (step_suspend settings s t c AwaitChunk AtYield (Chunk ch)
                 [EvReceived ch; EvYield ch]) by done.
      cbn [mbind option_bind].
      rewrite (step_suspend settings _ t c1 AtYield AwaitChunk Next [])
        by (try done; by apply (lookup_set_task t c)).
      exact Hrun.
    + rewrite Hlog. simpl. rewrite app_nil_r, <- app_assoc. done.
Qed.

Lemma step_start (settings : Settings) (s : state) (t : nat) (c : task) :
  accounted settings s →
  tasks s !! t = Some c → fr c = Created →
  (Z.of_nat (in_flight s) < max_concurrent_requests settings)%Z →
  ∃ s' sem,
    step settings s (Start t) = Some s'
    ∧ tasks s' !! t = Some (advance c Acquiring [])
    ∧ _inference_semaphore s' = Some sem ∧ (0 < _value sem)%Z.
Proof.
  intros Hacc Ht Hfr Hroom. simpl. rewrite Ht. simpl. rewrite Hfr.
  unfold get_semaphore, new_Semaphore, accounted in *.
  destruct (_inference_semaphore s) as [sem|] eqn:Hsem.
  - eexists _, sem. split; [reflexivity|]. split; [by apply (lookup_set_task t c)|].
    split; [done|]. lia.
  - destruct (max_concurrent_requests settings <? 0)%Z eqn:E; [lia|]. simpl.
    eexists _, _. split; [reflexivity|]. split.
    + simpl. apply list_lookup_insert_eq. by eapply lookup_lt_Some.
    + split; [reflexivity|]. simpl. lia.
Qed.

Lemma step_grant (settings : Settings) (s : state) (t : nat) (c : task) (sem : Semaphore) :
  tasks s !! t = Some c → fr c = Acquiring →
  _inference_semaphore s = Some sem → (0 < _value sem)%Z →
  step settings s (Grant t)
  = Some (set_task t
            (advance c (Inside (block_enter settings (kind c) (body c)).2)
               (EvAcquire :: (block_enter settings (kind c) (body c)).1))
            (set_semaphore {| _value := _value sem - 1 |} s)).
Proof.
  intros Ht Hfr Hsem Hpos. simpl. rewrite Ht. simpl. rewrite Hfr, Hsem. simpl.
  unfold acquire. destruct (0 <? _value sem)%Z eqn:E; [|lia]. simpl.
  by destruct (block_enter settings (kind c) (body c)).
Qed.

(** C9: at every moment the chunks a coroutine has yielded are the chunks it
    has read from the backend, in the same order; and against a backend that
    answers with a success status and then sends the chunks [cs], a consumer
    that pulls to the end gets exactly [cs], each chunk yielded in the step
    that read it. *)
Theorem stream_chunks_pass_through (settings : Settings) (s : state) (t : nat) (c : task) :
  reachable settings s → tasks s !! t = Some c →
  yielded (log c) = received (log c)
  ∧ (kind c = Stream → fr c = Created →
     (Z.of_nat (in_flight s) < max_concurrent_requests settings)%Z →
     ∀ response cs, is_success response = true →
       ∃ s' c',
         run settings s (stream_schedule t response cs) = Some s'
         ∧ tasks s' !! t = Some c'
         ∧ fr c' = Finished (Returns JNull)
         ∧ log c' = EvAcquire :: EvBackend "POST" (chat_url settings) (body c)
                      :: chunk_events cs ++ [EvRelease; EvExit (Returns JNull)]
         ∧ received (log c') = cs
         ∧ yielded (log c') = cs
         ∧ concat (yielded (log c')) = concat cs).
Proof.
  intros Hreach Ht. destruct (reachable_invariant _ _ Hreach) as [Hshape Hacc].
  pose proof (Forall_lookup_1 _ _ _ _ Hshape Ht) as Hc.
  split; [by apply (shape_passes_through settings)|].
  intros Hk Hfr Hroom response cs Hok.
  assert (log c = []) as Hlog0 by (apply (shape_waiting_inv settings); auto).
  (* Start *)
  destruct (step_start settings s t c Hacc Ht Hfr Hroom) as (s1 & sem & Hs1 & Ht1 & Hsem1 & Hpos).
  set (c1 := advance c Acquiring []) in *.
  (* Grant *)
  set (c2 := advance c1 (Inside AwaitStream)
               [EvAcquire; EvBackend "POST" (chat_url settings) (body c)]).
  set (s2 := set_task t c2 (set_semaphore {| _value := _value sem - 1 |} s1)).
  assert (step settings s1 (Grant t) = Some s2) as Hs2.
  { rewrite (step_grant settings s1 t c1 sem) by done.
    change (kind c1) with (kind c). by rewrite Hk. }
  assert (tasks s2 !! t = Some c2) as Ht2 by by apply (lookup_set_task t c1).
  (* the headers arrive *)
  assert (block_resume AwaitStream (Responded response) = Some ([], Suspend AwaitChunk))
    as Hres.
  { simpl. unfold raise_for_status. by rewrite Hok. }
  pose proof (step_suspend settings s2 t c2 _ _ _ _ Ht2 eq_refl Hres) as Hs3.
  set (c3 := advance c2 (Inside AwaitChunk) []) in *.
  set (s3 := set_task t c3 s2) in *.
  assert (tasks s3 !! t = Some c3) as Ht3 by by apply (lookup_set_task t c2).
  (* the chunks *)
  destruct (run_chunks settings cs s3 t c3 Ht3 eq_refl)
    as (s4 & c4 & Hs4 & Ht4 & Hfr4 & Hlog4 & Hsem4).
  (* the end of the stream *)
  pose proof (step_exit settings s4 t c4 {| _value := _value sem - 1 |}
                AwaitChunk EndOfStream [] (Returns JNull) Ht4 Hfr4 Hsem4 eq_refl) as Hs5.
  set (c5 := advance c4 (Finished (Returns JNull)) ([] ++ [EvRelease; EvExit (Returns JNull)])) in *.
  assert (log c5 = EvAcquire :: EvBackend "POST" (chat_url settings) (body c)
                     :: chunk_events cs ++ [EvRelease; EvExit (Returns JNull)]) as Hlog5.
  { unfold c5. cbn [log advance]. rewrite Hlog4. unfold c3, c2, c1. cbn [log advance].
    rewrite Hlog0. reflexivity. }
  eexists _, c5. split_and!.
  - unfold stream_schedule. rewrite run_app. cbn [run].
    rewrite Hs1. cbn [mbind option_bind]. rewrite Hs2. cbn [mbind option_bind].
    rewrite Hs3. cbn [mbind option_bind].
    rewrite run_app, Hs4. cbn [mbind option_bind run].
    rewrite Hs5. reflexivity.
  - by apply (lookup_set_task t c4).
  - done.
  - exact Hlog5.
  - rewrite Hlog5.
    change (received (chunk_events cs ++ [EvRelease; EvExit (Returns JNull)]) = cs).
    by rewrite received_app, received_chunk_events, app_nil_r.
  - rewrite Hlog5.
    change (yielded (chunk_events cs ++ [EvRelease; EvExit (Returns JNull)]) = cs).
    by rewrite yielded_app, yielded_chunk_events, app_nil_r.
  - rewrite Hlog5.
    change (concat (yielded (chunk_events cs ++ [EvRelease; EvExit (Returns JNull)]))
            = concat cs).
    by rewrite yielded_app, yielded_chunk_events, app_nil_r.
Qed.

Lemma stream_chunks_pass_through_witness :
  yielded [] = received []
  ∧ ∃ s' c',
      run one_slot arrived_state (stream_schedule 0 ok_response two_chunks) = Some s'
      ∧ tasks s' !! 0%nat = Some c'
      ∧ fr c' = Finished (Returns JNull)
      ∧ log c' = EvAcquire
                   :: EvBackend "POST" (chat_url one_slot)
                        (JsonContent (request_body one_slot stream_request))
                   :: chunk_events two_chunks ++ [EvRelease; EvExit (Returns JNull)]
      ∧ received (log c') = two_chunks
      ∧ yielded (log c') = two_chunks
      ∧ concat (yielded (log c')) = concat two_chunks.
Proof.
  assert (reachable one_slot arrived_state) as Hreach.
  { reach_by [chat_completions_call one_slot stream_request]. }
  destruct (stream_chunks_pass_through one_slot arrived_state 0 _ Hreach eq_refl)
    as [Hsame Hrun].
  split; [exact Hsame|].
  exact (Hrun eq_refl eq_refl eq_refl ok_response two_chunks eq_refl).
Defined.

(** ** The chat-completion route *)

Lemma lookup_set_field_ne (key key' : string) (value : option Json) (d : gmap string Json) :
  key ≠ key' → set_field key value d !! key' = d !! key'.
Proof. intros Hne. destruct value; simpl; [by apply lookup_insert_ne | done]. Qed.

Lemma model_dump_model (request : ChatCompletionRequest) :
  valid_request request →
  model_dump_exclude_none request !! "model" = JStr <$> model request.
Proof.
  intros Hvalid. unfold model_dump_exclude_none.
  destruct (model request) as [m|]; simpl; [apply lookup_insert_eq|].
  rewrite lookup_insert_ne by done.
  rewrite !lookup_set_field_ne by done.
  rewrite lookup_insert_ne by done.
  apply map_lookup_filter_None_2. left.
  unfold valid_request, declared_fields in Hvalid.
  by apply Forall_cons in Hvalid as [? _].
Qed.

Lemma request_body_model (settings : Settings) (request : ChatCompletionRequest) :
  valid_request request →
  request_body settings request !! "model"
  = Some (JStr match model request with
               | None => default_model settings
               | Some m => if String.eqb m "" then default_model settings else m
               end).
Proof.
  intros Hvalid. unfold request_body.
  rewrite (model_dump_model request Hvalid).
  destruct (model request) as [m|] eqn:Hm; simpl.
  - destruct (String.eqb m ""); simpl.
    + apply lookup_insert_eq.
    + by rewrite (model_dump_model request Hvalid), Hm.
  - apply lookup_insert_eq.
Qed.

(** C7, as amended: the body the relay sends to the backend carries the
    configured default model when the request has no model or an empty one,
    and the request's own model when that is a non-empty string. *)
Theorem default_model_forwarded (settings : Settings) (request : ChatCompletionRequest) :
  valid_request request →
  (0 < max_concurrent_requests settings)%Z →
  ∃ s c forwarded,
    run settings initial [chat_completions_call settings request; Start 0; Grant 0] = Some s
    ∧ tasks s !! 0%nat = Some c
    ∧ log c = [EvAcquire; EvBackend "POST" (chat_url settings) (JsonContent forwarded)]
    ∧ forwarded !! "model"
      = Some (JStr match model request with
                   | None => default_model settings
                   | Some m => if String.eqb m "" then default_model settings else m
                   end).
Proof.
  intros Hvalid Hpos. unfold chat_completions_call.
  destruct (stream request);
    (eexists _, _, (request_body settings request); split_and!;
     [ simpl; unfold get_semaphore, new_Semaphore; simpl;
       destruct (max_concurrent_requests settings <? 0)%Z eqn:E; [lia|]; simpl;
       unfold acquire; simpl;
       destruct (0 <? max_concurrent_requests settings)%Z eqn:E'; [|lia]; reflexivity
     | reflexivity
     | reflexivity
     | by apply request_body_model ]).
Qed.

Lemma default_model_forwarded_witness :
  ∃ s c forwarded,
    run one_slot initial [chat_completions_call one_slot unary_request; Start 0; Grant 0] = Some s
    ∧ tasks s !! 0%nat = Some c
    ∧ log c = [EvAcquire; EvBackend "POST" (chat_url one_slot) (JsonContent forwarded)]
    ∧ forwarded !! "model" = Some (JStr "llama-3").
Proof.
  apply (default_model_forwarded one_slot unary_request).
  - unfold valid_request, declared_fields. repeat constructor.
  - reflexivity.
Defined.

(** C7, as stated, fails: a request that sets its model to the empty string
    does not see that value forwarded, the default model is sent instead. *)
Lemma empty_model_replaced :
  model empty_model_request = Some ""
  ∧ request_body default_settings empty_model_request !! "model" = Some (JStr "gpt-oss-20b")
  ∧ request_body default_settings empty_model_request !! "model"
    ≠ JStr <$> model empty_model_request.
Proof. split; [reflexivity|]. split; [by vm_compute|]. vm_compute. discriminate. Qed.

Lemma status_code_in_message (response : Response) :
  infix_of (pretty (status_code response)) ("Backend error: " +:+ status_message response).
Proof.
  unfold status_message.
  exists ("Backend error: " +:+ error_type (status_code response) +:+ " '"). eexists.
  rewrite !append_assoc. reflexivity.
Qed.

(** C8, as amended: a unary call that meets a non-success status or a
    network error is answered with status 502 and the detail
    [Backend error: ] followed by the text of the exception; for the status
    error the relay raises an exception that carries the response, and the
    detail names its status code. *)
Theorem backend_failure_is_502 (response : Response) (message : string) :
  is_success response = false →
  chat_completions_try (Returns response)
    = Raises (HTTPStatusError (status_message response) response)
  ∧ chat_completions_response (chat_completions_try (Returns response))
    = Returns (HTTPException 502 ("Backend error: " +:+ status_message response))
  ∧ infix_of (pretty (status_code response)) ("Backend error: " +:+ status_message response)
  ∧ chat_completions_response (chat_completions_try (Raises (RequestError message)))
    = Returns (HTTPException 502 ("Backend error: " +:+ message)).
Proof.
  intros Hfail.
  assert (chat_completions_try (Returns response)
          = Raises (HTTPStatusError (status_message response) response)) as Htry.
  { unfold chat_completions_try, raise_for_status. simpl. by rewrite Hfail. }
  split_and!; [done | by rewrite Htry | apply status_code_in_message | done].
Qed.

Lemma backend_failure_is_502_witness :
  chat_completions_try (Returns oom_response)
    = Raises (HTTPStatusError (status_message oom_response) oom_response)
  ∧ chat_completions_response (chat_completions_try (Returns oom_response))
    = Returns (HTTPException 502 ("Backend error: " +:+ status_message oom_response))
  ∧ infix_of "500" ("Backend error: " +:+ status_message oom_response)
  ∧ chat_completions_response
      (chat_completions_try (Raises (RequestError "All connection attempts failed")))
    = Returns (HTTPException 502 "Backend error: All connection attempts failed").
Proof. apply (backend_failure_is_502 oom_response). reflexivity. Defined.

(** C8, as stated, fails: for the backend's 500 with body [{"error":"oom"}]
    the gateway answers 502 with a detail that names the status and the URL,
    and the body of the backend's answer is not part of it. *)
Lemma oom_body_not_in_detail :
  chat_completions_response (chat_completions_try (Returns oom_response))
    = Returns (HTTPException 502
        ("Backend error: Server error '500 Internal Server Error' for url "
         +:+ "'http://127.0.0.1:8080/v1/chat/completions'" +:+ newline
         +:+ "For more information check: "
         +:+ "https://developer.mozilla.org/en-US/docs/Web/HTTP/Status/500"))
  ∧ ¬ infix_of (text oom_response) ("Backend error: " +:+ status_message oom_response).
Proof.
  split; [by vm_compute|].
  intros H. apply infixb_complete in H. vm_compute in H. discriminate.
Qed.

(** * Further properties *)

(** ** Registration and start-up *)

(** X1: [register_dns] sends a request exactly when registration is switched
    on; it returns [True] when registration is off or the DNS API answered
    with a success status, and [False], not an exception, on an error status
    or a network failure. *)
Theorem register_dns_reports
    (settings : Settings) (dns : DnsSettings) (response : Response) (message : string) :
  (∀ post, is_Some (register_dns settings dns post).1 ↔ dns_register_on_startup dns = true)
  ∧ (register_dns settings dns (Returns response)).2
    = Returns (negb (dns_register_on_startup dns) || is_success response)
  ∧ (register_dns settings dns (Raises (RequestError message))).2
    = Returns (negb (dns_register_on_startup dns)).
Proof.
  unfold register_dns. destruct (dns_register_on_startup dns); simpl; split_and!.
  - intros post. split; [done | by eauto].
  - unfold raise_for_status. by destruct (is_success response).
  - done.
  - intros post. split; [by intros [? ?] | done].
  - done.
  - done.
Qed.

(** X2: with a capacity that is not negative, start-up from the fresh module
    state succeeds whether the DNS API accepts the registration, refuses it
    or cannot be reached; it leaves the semaphore created with every slot
    free, in a state of the event loop. *)
Theorem startup_survives_registration
    (settings : Settings) (dns : DnsSettings) (response : Response) (message : string) :
  (0 ≤ max_concurrent_requests settings)%Z →
  ∃ s',
    (lifespan_startup settings dns initial (Returns response)).2 = Returns s'
    ∧ (lifespan_startup settings dns initial (Raises (RequestError message))).2 = Returns s'
    ∧ available_slots s' = Some (max_concurrent_requests settings)
    ∧ tasks s' = []
    ∧ reachable settings s'.
Proof.
  intros Hpos.
  exists {| _inference_semaphore := Some {| _value := max_concurrent_requests settings |};
            tasks := [] |}.
  assert (get_semaphore settings initial
          = Returns ({| _value := max_concurrent_requests settings |},
                     {| _inference_semaphore :=
                          Some {| _value := max_concurrent_requests settings |};
                        tasks := [] |})) as Hget.
  { unfold get_semaphore, new_Semaphore. simpl.
    destruct (max_concurrent_requests settings <? 0)%Z eqn:E; [lia | done]. }
  unfold lifespan_startup. rewrite Hget. unfold register_dns.
  split_and!; try done.
  - destruct (dns_register_on_startup dns); simpl; [|done].
    unfold raise_for_status. by destruct (is_success response).
  - by destruct (dns_register_on_startup dns).
  - apply (reachable_step settings initial QueueStatus); [apply reachable_initial|].
    simpl. by rewrite Hget.
Qed.

Lemma startup_survives_registration_witness :
  ∃ s',
    (lifespan_startup one_slot registering initial (Returns not_found_response)).2 = Returns s'
    ∧ (lifespan_startup one_slot registering initial
         (Raises (RequestError "All connection attempts failed"))).2 = Returns s'
    ∧ available_slots s' = Some (max_concurrent_requests one_slot)
    ∧ tasks s' = []
    ∧ reachable one_slot s'.
Proof.
  apply (startup_survives_registration one_slot registering not_found_response).
  vm_compute. discriminate.
Defined.

(** X3: with a negative capacity, start-up from the fresh module state raises
    the semaphore's [ValueError], and does so before anything is sent to the
    DNS API. *)
Theorem startup_refuses_negative_capacity
    (settings : Settings) (dns : DnsSettings) (post : result Response) :
  (max_concurrent_requests settings < 0)%Z →
  lifespan_startup settings dns initial post
  = (None, Raises (ValueError "Semaphore initial value must be >= 0")).
Proof.
  intros Hneg. unfold lifespan_startup, get_semaphore, new_Semaphore. simpl.
  destruct (max_concurrent_requests settings <? 0)%Z eqn:E; [done | lia].
Qed.

Lemma startup_refuses_negative_capacity_witness :
  lifespan_startup negative_slots registering initial (Returns ok_response)
  = (None, Raises (ValueError "Semaphore initial value must be >= 0")).
Proof. apply (startup_refuses_negative_capacity negative_slots registering). reflexivity. Defined.

(** ** The guarded coroutines, continued *)

(** X5: a call that is cancelled, or has any exception thrown in, while it
    waits for a permit ends with that exception without having entered the
    block: it has made no call to the backend, the number of calls in flight
    is what it was, and every other coroutine is left as it is. *)
Theorem cancelled_while_queued (settings : Settings) (s : state) (t : nat) (c : task) (e : exn) :
  reachable settings s → tasks s !! t = Some c → fr c = Acquiring →
  ∃ s' c',
    step settings s (Resume t (Throw e)) = Some s'
    ∧ tasks s' !! t = Some c'
    ∧ fr c' = Finished (Raises e)
    ∧ log c' = [EvExit (Raises e)]
    ∧ in_flight s' = in_flight s
    ∧ (∀ u cu, u ≠ t → tasks s !! u = Some cu → tasks s' !! u = Some cu).
Proof.
  intros Hreach Ht Hfr. destruct (reachable_invariant _ _ Hreach) as [Hshape _].
  pose proof (Forall_lookup_1 _ _ _ _ Hshape Ht) as Hc.
  exists (set_task t (advance c (Finished (Raises e)) [EvExit (Raises e)]) s),
         (advance c (Finished (Raises e)) [EvExit (Raises e)]).
  split_and!.
  - simpl. rewrite Ht. simpl. by rewrite Hfr.
  - by apply (lookup_set_task t c).
  - done.
  - simpl. by rewrite (shape_waiting_inv settings c) by auto.
  - pose proof (in_flight_set_task s t c
                  (advance c (Finished (Raises e)) [EvExit (Raises e)]) Ht) as Hn.
    unfold holds_permit in Hn. simpl in Hn. rewrite Hfr in Hn. lia.
  - intros u cu Hne Hu. simpl. by rewrite list_lookup_insert_ne.
Qed.

Lemma cancelled_while_queued_witness :
  ∃ s' c',
    step one_slot busy_state (Resume 1 (Throw CancelledError)) = Some s'
    ∧ tasks s' !! 1%nat = Some c'
    ∧ fr c' = Finished (Raises CancelledError)
    ∧ log c' = [EvExit (Raises CancelledError)]
    ∧ in_flight s' = in_flight busy_state
    ∧ (∀ u cu, u ≠ 1%nat → tasks busy_state !! u = Some cu → tasks s' !! u = Some cu).
Proof.
  refine (cancelled_while_queued one_slot busy_state 1 _ CancelledError _ eq_refl eq_refl).
  reach_by busy_schedule.
Defined.

Lemma backend_calls_app (l1 l2 : list event) :
  backend_calls (l1 ++ l2) = backend_calls l1 ++ backend_calls l2.
Proof. apply filter_app. Qed.

Lemma backend_calls_chunk_events (cs : list chunk) : backend_calls (chunk_events cs) = [].
Proof. induction cs as [|c cs IH]; [done|]. apply IH. Qed.

(** X6: a call of the relay calls the HTTP client at most once, for a POST to
    the chat-completions URL with the very body it was handed, and it has
    made that call exactly when it has acquired its permit; a unary call
    never reads or yields a chunk. *)
Theorem relay_sends_once (settings : Settings) (s : state) (t : nat) (c : task) :
  reachable settings s → tasks s !! t = Some c →
  (backend_calls (log c) = [] ∧ acquires (log c) = 0%nat
   ∨ backend_calls (log c) = [EvBackend "POST" (chat_url settings) (body c)]
     ∧ acquires (log c) = 1%nat)
  ∧ (kind c = Unary → yielded (log c) = [] ∧ received (log c) = []).
Proof.
  intros Hreach Ht. destruct (reachable_invariant _ _ Hreach) as [Hshape _].
  pose proof (Forall_lookup_1 _ _ _ _ Hshape Ht) as Hc.
  destruct Hc as [Hw Hlog|o Hf Hlog|p cs Hf Hok Hlog|o cs Hf Hu Hlog]; rewrite Hlog.
  - split; [by left | done].
  - split; [by left | done].
  - split.
    + right. rewrite backend_calls_app, acquires_app, backend_calls_chunk_events,
        acquires_chunk_events. done.
    + intros Hk. rewrite Hk in Hok. destruct p; try done. by rewrite Hok.
  - split.
    + right. rewrite !backend_calls_app, !acquires_app, backend_calls_chunk_events,
        acquires_chunk_events. done.
    + intros Hk. by rewrite (Hu Hk).
Qed.

Lemma relay_sends_once_witness :
  reachable one_slot busy_state
  ∧ backend_calls [ EvAcquire;
                    EvBackend "POST" "http://127.0.0.1:8080/v1/chat/completions"
                      (JsonContent (request_body one_slot stream_request)) ]
    = [ EvBackend "POST" (chat_url one_slot)
          (JsonContent (request_body one_slot stream_request)) ]
  ∧ acquires [ EvAcquire;
               EvBackend "POST" "http://127.0.0.1:8080/v1/chat/completions"
                 (JsonContent (request_body one_slot stream_request)) ] = 1%nat.
Proof.
  assert (reachable one_slot busy_state) as Hreach by reach_by busy_schedule.
  split; [exact Hreach|].
  destruct (relay_sends_once one_slot busy_state 0 _ Hreach eq_refl)
    as [[[_ Hnone] | Hone] _].
  - discriminate Hnone.
  - exact Hone.
Defined.

Lemma step_start_tasks (settings : Settings) (s : state) (t : nat) (c : task) :
  accounted settings s →
  tasks s !! t = Some c → fr c = Created →
  (Z.of_nat (in_flight s) < max_concurrent_requests settings)%Z →
  ∃ s' sem,
    step settings s (Start t) = Some s'
    ∧ tasks s' = <[t := advance c Acquiring []]> (tasks s)
    ∧ _inference_semaphore s' = Some sem
    ∧ _value sem = (max_concurrent_requests settings - Z.of_nat (in_flight s))%Z.
Proof.
  intros Hacc Ht Hfr Hroom. simpl. rewrite Ht. simpl. rewrite Hfr.
  unfold get_semaphore, new_Semaphore, accounted in *.
  destruct (_inference_semaphore s) as [sem|] eqn:Hsem.
  - eexists _, sem. split; [reflexivity|]. split; [done|]. split; [done|]. lia.
  - destruct (max_concurrent_requests settings <? 0)%Z eqn:E; [lia|]. simpl.
    eexists _, _. split; [reflexivity|]. split; [done|]. split; [reflexivity|].
    simpl. pose proof (dormant_in_flight _ Hacc) as Hzero. unfold in_flight. lia.
Qed.

(** X7: when the backend answers a streaming call with a status that is not
    a success, the generator ends by raising the status error without having
    yielded a chunk, and the slot it held is free again. *)
Theorem stream_error_forwards_nothing
    (settings : Settings) (s : state) (t : nat) (c : task) (response : Response) :
  reachable settings s → tasks s !! t = Some c →
  kind c = Stream → fr c = Created →
  (Z.of_nat (in_flight s) < max_concurrent_requests settings)%Z →
  is_success response = false →
  ∃ s' c',
    run settings s [Start t; Grant t; Resume t (Responded response)] = Some s'
    ∧ tasks s' !! t = Some c'
    ∧ fr c' = Finished (Raises (HTTPStatusError (status_message response) response))
    ∧ log c' = [ EvAcquire; EvBackend "POST" (chat_url settings) (body c); EvRelease;
                 EvExit (Raises (HTTPStatusError (status_message response) response)) ]
    ∧ yielded (log c') = []
    ∧ in_flight s' = in_flight s
    ∧ available_slots s'
      = Some (max_concurrent_requests settings - Z.of_nat (in_flight s))%Z.
Proof.
  intros Hreach Ht Hk Hfr Hroom Hfail.
  destruct (reachable_invariant _ _ Hreach) as [Hshape Hacc].
  pose proof (Forall_lookup_1 _ _ _ _ Hshape Ht) as Hc.
  assert (log c = []) as Hlog0 by (apply (shape_waiting_inv settings); auto).
  assert (t < length (tasks s))%nat as Hlt by by eapply lookup_lt_Some.
  (* Start *)
  destruct (step_start_tasks settings s t c Hacc Ht Hfr Hroom)
    as (s1 & sem & Hs1 & Htasks1 & Hsem1 & Hval).
  set (c1 := advance c Acquiring []) in *.
  assert (tasks s1 !! t = Some c1) as Ht1.
  { rewrite Htasks1. by apply list_lookup_insert_eq. }
  (* Grant *)
  set (c2 := advance c1 (Inside AwaitStream)
               [EvAcquire; EvBackend "POST" (chat_url settings) (body c)]).
  set (s2 := set_task t c2 (set_semaphore {| _value := _value sem - 1 |} s1)).
  assert (step settings s1 (Grant t) = Some s2) as Hs2.
  { rewrite (step_grant settings s1 t c1 sem) by (try done; lia).
    change (kind c1) with (kind c). by rewrite Hk. }
  assert (tasks s2 !! t = Some c2) as Ht2 by by apply (lookup_set_task t c1).
  (* the error status arrives *)
  set (o := Raises (HTTPStatusError (status_message response) response) : result Json).
  assert (block_resume AwaitStream (Responded response) = Some ([], Exit o)) as Hres.
  { simpl. unfold raise_for_status. by rewrite Hfail. }
  pose proof (step_exit settings s2 t c2 {| _value := _value sem - 1 |}
                AwaitStream _ _ _ Ht2 eq_refl eq_refl Hres) as Hs3.
  set (c3 := advance c2 (Finished o) ([] ++ [EvRelease; EvExit o])) in *.
  assert (log c3 = [EvAcquire; EvBackend "POST" (chat_url settings) (body c);
                    EvRelease; EvExit o]) as Hlog3.
  { unfold c3, c2, c1. cbn [log advance]. by rewrite Hlog0. }
  eexists _, c3. split_and!.
  - cbn [run]. rewrite Hs1. cbn [mbind option_bind]. rewrite Hs2. cbn [mbind option_bind].
    rewrite Hs3. reflexivity.
  - by apply (lookup_set_task t c2).
  - done.
  - exact Hlog3.
  - by rewrite Hlog3.
  - unfold in_flight. cbn [tasks set_task set_semaphore s2].
    rewrite Htasks1, !list_insert_insert_eq.
    pose proof (holding_insert (tasks s) t c c3 Ht) as Hn.
    assert (holds_permit c = false) as Hc0 by (unfold holds_permit; by rewrite Hfr).
    assert (holds_permit c3 = false) as Hc3 by done.
    rewrite Hc0, Hc3 in Hn. lia.
  - unfold available_slots. simpl. f_equal. lia.
Qed.

Lemma stream_error_forwards_nothing_witness :
  ∃ s' c',
    run one_slot arrived_state [Start 0; Grant 0; Resume 0 (Responded oom_response)] = Some s'
    ∧ tasks s' !! 0%nat = Some c'
    ∧ fr c' = Finished (Raises (HTTPStatusError (status_message oom_response) oom_response))
    ∧ log c' = [ EvAcquire;
                 EvBackend "POST" (chat_url one_slot)
                   (JsonContent (request_body one_slot stream_request));
                 EvRelease;
                 EvExit (Raises (HTTPStatusError (status_message oom_response) oom_response)) ]
    ∧ yielded (log c') = []
    ∧ in_flight s' = in_flight arrived_state
    ∧ available_slots s'
      = Some (max_concurrent_requests one_slot - Z.of_nat (in_flight arrived_state))%Z.
Proof.
  refine (stream_error_forwards_nothing one_slot arrived_state 0 _ oom_response
            _ eq_refl eq_refl eq_refl eq_refl eq_refl).
  reach_by [chat_completions_call one_slot stream_request].
Defined.

(** ** The passthrough route and the routing table *)



(** X9: the passthrough route never lets an [Exception] out: a failure to
    read the inbound body (nothing is sent then), a failure of the request to
    the backend, or a body of the backend that is not JSON, each gives status
    502 with the text of the exception as detail; only an exception that is
    no [Exception], such as a cancellation, leaves the handler. *)
Theorem passthrough_failures
    (settings : Settings) (method path : string) (read : result chunk)
    (answer : result Response) :
  match (proxy_fallback settings method path read answer).2 with
  | Returns _ => True
  | Raises e => is_Exception e = false
  end
  ∧ (∀ e, read = Raises e → is_Exception e = true →
       proxy_fallback settings method path read answer
       = ([], Returns (HTTPException 502 (exn_str e))))
  ∧ (∀ request_body e, read = Returns request_body → answer = Raises e →
       is_Exception e = true →
       (proxy_fallback settings method path read answer).2
       = Returns (HTTPException 502 (exn_str e)))
  ∧ (∀ request_body response msg,
       read = Returns request_body → answer = Returns response →
       json response = Undecodable msg →
       (proxy_fallback settings method path read answer).2
       = Returns (HTTPException 502 msg)).
Proof.
  split_and!.
  - unfold proxy_fallback. destruct read as [request_body|e]; simpl.
    + destruct answer as [response|e]; simpl.
      * unfold response_json. destruct (json response) as [payload|msg]; simpl; [|done].
        unfold new_JSONResponse. by destruct (compliant payload).
      * by destruct (is_Exception e) eqn:E.
    + by destruct (is_Exception e) eqn:E.
  - intros e -> He. simpl. by rewrite He.
  - intros request_body e -> -> He. simpl. by rewrite He.
  - intros request_body response msg -> -> Hjson. simpl. unfold response_json.
    by rewrite Hjson.
Qed.

Lemma strip_prefix_Some (p s r : string) : strip_prefix p s = Some r → s = p +:+ r.
Proof.
  revert s. induction p as [|a p IH]; intros s H; simpl in H.
  - by simplify_eq.
  - destruct s as [|b s]; [done|]. destruct (Ascii.eqb a b) eqn:E; [|done].
    apply Ascii.eqb_eq in E as ->. rewrite append_cons. f_equal. by apply IH.
Qed.

Lemma strip_prefix_append (p r : string) : strip_prefix p (p +:+ r) = Some r.
Proof.
  induction p as [|a p IH]; [done|].
  rewrite append_cons. simpl. by rewrite Ascii.eqb_refl.
Qed.

Lemma chomp_append (p r : string) :
  has_newline p = false → chomp (p +:+ r) = p +:+ chomp r.
Proof.
  induction p as [|a p IH]; intros Hp; [done|].
  simpl in Hp. apply orb_false_iff in Hp as [Ha Hp].
  rewrite !append_cons. cbn [chomp]. rewrite Ha. simpl. by rewrite IH.
Qed.

Lemma chomp_no_newline (r : string) : has_newline r = false → chomp r = r.
Proof.
  induction r as [|a r IH]; intros Hr; [done|].
  simpl in Hr. apply orb_false_iff in Hr as [Ha Hr].
  cbn [chomp]. rewrite Ha. simpl. by rewrite IH.
Qed.

Lemma match_fallback_Some (path rest : string) :
  match_fallback path = Some rest →
  chomp path = "/v1/" +:+ rest ∧ has_newline rest = false.
Proof.
  unfold match_fallback. intros H.
  destruct (strip_prefix "/v1/" path) as [r|] eqn:Hs; [|done]. simpl in H.
  destruct (has_newline (chomp r)) eqn:Hn; [done|]. injection H as <-.
  split; [|done]. rewrite (strip_prefix_Some _ _ _ Hs). by apply chomp_append.
Qed.

(** X10: a request reaches the passthrough route only with method GET or
    POST, with a path that is [/v1/] followed by a rest without a newline
    (one newline that ends the path is dropped), and when none of the
    declared routes under [/v1/] takes that method and path; the URL the
    handler gives the HTTP client is then the backend's base URL followed by
    that path. *)
Theorem passthrough_route
    (settings : Settings) (method path rest : string) (request_body : chunk)
    (answer : result Response) :
  dispatch method path = Some (RouteProxyFallback rest) →
  chomp path = "/v1/" +:+ rest
  ∧ has_newline rest = false
  ∧ (method = "GET" ∨ method = "POST")
  ∧ ¬ (method = "POST" ∧ chomp path = "/v1/chat/completions")
  ∧ ¬ (method = "GET" ∧ chomp path = "/v1/models")
  ∧ ¬ (method = "GET" ∧ chomp path = "/v1/queue/status")
  ∧ (proxy_fallback settings method rest (Returns request_body) answer).1
    = [EvBackend method (llama_server_url settings +:+ chomp path) (RawContent request_body)].
Proof.
  unfold dispatch, path_is. intros H.
  destruct (String.eqb method "GET" && String.eqb (chomp path) "/health") eqn:H1; [done|].
  destruct (String.eqb method "GET" && String.eqb (chomp path) "/") eqn:H2; [done|].
  destruct (String.eqb method "POST" && String.eqb (chomp path) "/v1/chat/completions")
    eqn:H3; [done|].
  destruct (String.eqb method "GET" && String.eqb (chomp path) "/v1/models") eqn:H4;
    [done|].
  destruct (String.eqb method "GET" && String.eqb (chomp path) "/v1/queue/status") eqn:H5;
    [done|].
  destruct (String.eqb method "GET" || String.eqb method "POST") eqn:H6; [|done].
  destruct (match_fallback path) as [r|] eqn:Hs; [|done].
  simpl in H. injection H as ->.
  destruct (match_fallback_Some _ _ Hs) as [Hpath Hclean].
  split_and!.
  - done.
  - done.
  - apply orb_true_iff in H6 as [E|E]; apply String.eqb_eq in E; auto.
  - intros [Hm Hp]. rewrite Hm, Hp in H3. done.
  - intros [Hm Hp]. rewrite Hm, Hp in H4. done.
  - intros [Hm Hp]. rewrite Hm, Hp in H5. done.
  - by rewrite Hpath.
Qed.

Lemma passthrough_route_witness :
  chomp "/v1/chat/completions" = "/v1/" +:+ "chat/completions"
  ∧ has_newline "chat/completions" = false
  ∧ ("GET" = "GET" ∨ "GET" = "POST")
  ∧ ¬ ("GET" = "POST" ∧ chomp "/v1/chat/completions" = "/v1/chat/completions")
  ∧ ¬ ("GET" = "GET" ∧ chomp "/v1/chat/completions" = "/v1/models")
  ∧ ¬ ("GET" = "GET" ∧ chomp "/v1/chat/completions" = "/v1/queue/status")
  ∧ (proxy_fallback default_settings "GET" "chat/completions" (Returns [])
       (Returns ok_response)).1
    = [EvBackend "GET" (llama_server_url default_settings +:+ chomp "/v1/chat/completions")
         (RawContent [])].
Proof.
  apply (passthrough_route default_settings "GET" "/v1/chat/completions"). reflexivity.
Defined.

Lemma has_newline_append (p r : string) :
  has_newline (p +:+ r) = has_newline p || has_newline r.
Proof.
  induction p as [|a p IH]; [done|].
  rewrite append_cons. simpl. rewrite IH. by rewrite orb_assoc.
Qed.

(** X11: every GET and every POST whose path is [/v1/] followed by a rest
    without a newline is served by one of the routes main.py declares; a
    path under [/v1/] with a newline before its end is served by none of
    them, and neither is a request with another method. *)
Theorem methods_served (method : string) :
  (method = "GET" ∨ method = "POST" →
   ∀ rest, has_newline rest = false → is_Some (dispatch method ("/v1/" +:+ rest)))
  ∧ (∀ rest, has_newline (chomp rest) = true → dispatch method ("/v1/" +:+ rest) = None)
  ∧ (method ≠ "GET" → method ≠ "POST" → ∀ path, dispatch method path = None).
Proof.
  split_and!.
  - intros Hm rest Hclean. unfold dispatch.
    repeat (match goal with
            | |- is_Some (if ?b then Some _ else _) => destruct b; [by eauto|]
            end).
    unfold match_fallback. rewrite strip_prefix_append. simpl.
    rewrite (chomp_no_newline rest Hclean), Hclean.
    destruct Hm as [-> | ->]; simpl; by eauto.
  - intros rest Hdirty.
    assert (has_newline (chomp ("/v1/" +:+ rest)) = true) as Hpath.
    { rewrite chomp_append by done. by rewrite has_newline_append, Hdirty. }
    assert (∀ literal, has_newline literal = false →
              path_is literal ("/v1/" +:+ rest) = false) as Hno.
    { intros literal Hlit. unfold path_is.
      destruct (String.eqb (chomp ("/v1/" +:+ rest)) literal) eqn:E; [|done].
      apply String.eqb_eq in E. rewrite E in Hpath. congruence. }
    unfold dispatch. rewrite !Hno by done. rewrite !andb_false_r.
    unfold match_fallback. rewrite strip_prefix_append. simpl. rewrite Hdirty.
    by destruct (String.eqb method "GET" || String.eqb method "POST").
  - intros Hget Hpost path. unfold dispatch.
    apply String.eqb_neq in Hget, Hpost. by rewrite Hget, Hpost.
Qed.

Lemma methods_served_witness :
  (∀ rest, has_newline rest = false → is_Some (dispatch "POST" ("/v1/" +:+ rest)))
  ∧ dispatch "GET" ("/v1/" +:+ "a" +:+ newline +:+ "b") = None
  ∧ (∀ path, dispatch "DELETE" path = None).
Proof.
  split_and!.
  - apply (proj1 (methods_served "POST")). by right.
  - apply (proj1 (proj2 (methods_served "GET"))). reflexivity.
  - by apply (proj2 (proj2 (methods_served "DELETE"))).
Defined.

(** ** The forwarded body and the unary answer *)






(** X13: when the configured default model is not the empty string, the body
    forwarded to the backend always names a model that is a non-empty
    string. *)
Theorem forwarded_model_never_empty (settings : Settings) (request : ChatCompletionRequest) :
  valid_request request →
  default_model settings ≠ "" →
  ∃ name, request_body settings request !! "model" = Some (JStr name) ∧ name ≠ "".
Proof.
  intros Hvalid Hdefault. rewrite (request_body_model settings request Hvalid).
  eexists. split; [reflexivity|].
  destruct (model request) as [m|]; [|done].
  destruct (String.eqb m "") eqn:E; [done|]. by apply String.eqb_neq.
Qed.

Lemma forwarded_model_never_empty_witness :
  ∃ name, request_body default_settings empty_model_request !! "model" = Some (JStr name)
          ∧ name ≠ "".
Proof.
  apply (forwarded_model_never_empty default_settings empty_model_request).
  - unfold valid_request, declared_fields. repeat constructor.
  - discriminate.
Defined.



(** ** A unary call from end to end, and the capacity of zero *)

(** X15: a unary call that finds a free slot acquires, makes its one call to
    the HTTP client, and on the outcome of that call - a response, or an
    exception, also one the client raises before anything has left - ends
    with what the [try] statement makes of it, releases, and leaves as many
    calls in flight and as many slots free as there were. *)
Theorem unary_call_round_trip
    (settings : Settings) (s : state) (t : nat) (c : task) (post : result Response) :
  reachable settings s → tasks s !! t = Some c →
  kind c = Unary → fr c = Created →
  (Z.of_nat (in_flight s) < max_concurrent_requests settings)%Z →
  ∃ s' c',
    run settings s [Start t; Grant t; Resume t (resume_with post)] = Some s'
    ∧ tasks s' !! t = Some c'
    ∧ fr c' = Finished (chat_completions_try post)
    ∧ log c' = [ EvAcquire; EvBackend "POST" (chat_url settings) (body c); EvRelease;
                 EvExit (chat_completions_try post) ]
    ∧ in_flight s' = in_flight s
    ∧ available_slots s'
      = Some (max_concurrent_requests settings - Z.of_nat (in_flight s))%Z.
Proof.
  intros Hreach Ht Hk Hfr Hroom.
  destruct (reachable_invariant _ _ Hreach) as [Hshape Hacc].
  pose proof (Forall_lookup_1 _ _ _ _ Hshape Ht) as Hc.
  assert (log c = []) as Hlog0 by (apply (shape_waiting_inv settings); auto).
  destruct (step_start_tasks settings s t c Hacc Ht Hfr Hroom)
    as (s1 & sem & Hs1 & Htasks1 & Hsem1 & Hval).
  set (c1 := advance c Acquiring []) in *.
  assert (tasks s1 !! t = Some c1) as Ht1.
  { rewrite Htasks1. apply list_lookup_insert_eq. by eapply lookup_lt_Some. }
  set (c2 := advance c1 (Inside AwaitPost)
               [EvAcquire; EvBackend "POST" (chat_url settings) (body c)]).
  set (s2 := set_task t c2 (set_semaphore {| _value := _value sem - 1 |} s1)).
  assert (step settings s1 (Grant t) = Some s2) as Hs2.
  { rewrite (step_grant settings s1 t c1 sem) by (try done; lia).
    change (kind c1) with (kind c). by rewrite Hk. }
  assert (tasks s2 !! t = Some c2) as Ht2 by by apply (lookup_set_task t c1).
  set (o := chat_completions_try post).
  assert (block_resume AwaitPost (resume_with post) = Some ([], Exit o)) as Hres
    by by destruct post.
  pose proof (step_exit settings s2 t c2 {| _value := _value sem - 1 |}
                AwaitPost _ _ _ Ht2 eq_refl eq_refl Hres) as Hs3.
  set (c3 := advance c2 (Finished o) ([] ++ [EvRelease; EvExit o])) in *.
  assert (log c3 = [EvAcquire; EvBackend "POST" (chat_url settings) (body c);
                    EvRelease; EvExit o]) as Hlog3.
  { unfold c3, c2, c1. cbn [log advance]. by rewrite Hlog0. }
  eexists _, c3. split_and!.
  - cbn [run]. rewrite Hs1. cbn [mbind option_bind]. rewrite Hs2. cbn [mbind option_bind].
    rewrite Hs3. reflexivity.
  - by apply (lookup_set_task t c2).
  - done.
  - exact Hlog3.
  - unfold in_flight. cbn [tasks set_task set_semaphore s2].
    rewrite Htasks1, !list_insert_insert_eq.
    pose proof (holding_insert (tasks s) t c c3 Ht) as Hn.
    assert (holds_permit c = false) as Hc0 by (unfold holds_permit; by rewrite Hfr).
    assert (holds_permit c3 = false) as Hc3 by done.
    rewrite Hc0, Hc3 in Hn. lia.
  - unfold available_slots. simpl. f_equal. lia.
Qed.

Lemma unary_call_round_trip_witness :
  ∃ s' c',
    run one_slot unary_arrived_state
      [Start 0; Grant 0; Resume 0 (resume_with (Raises (RequestError "timed out")))] = Some s'
    ∧ tasks s' !! 0%nat = Some c'
    ∧ fr c' = Finished (chat_completions_try (Raises (RequestError "timed out")))
    ∧ log c' = [ EvAcquire;
                 EvBackend "POST" (chat_url one_slot)
                   (JsonContent (request_body one_slot unary_request));
                 EvRelease;
                 EvExit (chat_completions_try (Raises (RequestError "timed out"))) ]
    ∧ in_flight s' = in_flight unary_arrived_state
    ∧ available_slots s'
      = Some (max_concurrent_requests one_slot - Z.of_nat (in_flight unary_arrived_state))%Z.
Proof.
  refine (unary_call_round_trip one_slot unary_arrived_state 0 _
            (Raises (RequestError "timed out")) _ eq_refl eq_refl eq_refl eq_refl).
  reach_by [chat_completions_call one_slot unary_request].
Defined.

Lemma acquires_snoc_exit (events : list event) (o : result Json) :
  acquires (events ++ [EvExit o]) = acquires events.
Proof. rewrite acquires_app. simpl. unfold acquires at 2. simpl. lia. Qed.

(** With a capacity of zero no coroutine ever gets a permit. *)
Lemma zero_capacity_no_acquire (settings : Settings) (s : state) :
  max_concurrent_requests settings = 0%Z →
  reachable settings s →
  Forall (fun c => acquires (log c) = 0%nat) (tasks s).
Proof.
  intros Hzero. induction 1 as [|s a s' Hreach IH Hstep]; [by constructor|].
  destruct (reachable_invariant _ _ Hreach) as [_ Hacc].
  assert (in_flight s = 0%nat) as Hnone.
  { unfold accounted in Hacc. destruct (_inference_semaphore s).
    - lia.
    - unfold in_flight. by apply dormant_in_flight. }
  destruct a as [k b| |t|t|t i]; simpl in Hstep.
  - simplify_eq/=. apply Forall_app. split; [done|]. by constructor.
  - destruct (get_semaphore settings s) as [[sem s0]|e] eqn:Hget; simplify_eq; [|done].
    by destruct (get_semaphore_tasks _ _ _ _ Hget) as [-> _].
  - destruct (tasks s !! t) as [c|] eqn:Ht; simplify_eq/=.
    pose proof (Forall_lookup_1 _ _ _ _ IH Ht) as Hc. simpl in Hc.
    destruct (fr c); simplify_eq.
    destruct (get_semaphore settings s) as [[sem s0]|e] eqn:Hget; simplify_eq/=.
    + destruct (get_semaphore_tasks _ _ _ _ Hget) as [-> _].
      apply Forall_insert; [done|]. simpl. by rewrite app_nil_r.
    + apply Forall_insert; [done|]. simpl. by rewrite acquires_snoc_exit.
  - exfalso. destruct (tasks s !! t) as [c|] eqn:Ht; simplify_eq/=.
    destruct (fr c); simplify_eq.
    destruct (_inference_semaphore s) as [sem|] eqn:Hsem; simplify_eq/=.
    unfold accounted in Hacc. rewrite Hsem in Hacc. unfold acquire in Hstep.
    destruct (0 <? _value sem)%Z eqn:E; [lia | done].
  - destruct (tasks s !! t) as [c|] eqn:Ht; simplify_eq/=.
    pose proof (Forall_lookup_1 _ _ _ _ IH Ht) as Hc. simpl in Hc.
    destruct (fr c) eqn:Hfr; simplify_eq.
    + destruct i; simplify_eq/=.
      apply Forall_insert; [done|]. simpl. by rewrite acquires_snoc_exit.
    + exfalso. assert (holds_permit c = true) as Hholds
        by (unfold holds_permit; by rewrite Hfr).
      pose proof (holder_in_flight s t c Ht Hholds). lia.
Qed.

(** X16: a configured capacity of zero is accepted, and then no call is ever
    let in: no [acquire()] returns, nothing is in flight, and no coroutine of
    the relay sends a request to the backend. *)
Theorem zero_capacity_blocks (settings : Settings) (s : state) :
  max_concurrent_requests settings = 0%Z →
  reachable settings s →
  in_flight s = 0%nat
  ∧ (∀ t, step settings s (Grant t) = None)
  ∧ (∀ t c, tasks s !! t = Some c → backend_calls (log c) = []).
Proof.
  intros Hzero Hreach.
  destruct (reachable_invariant _ _ Hreach) as [Hshape Hacc].
  assert (in_flight s = 0%nat) as Hnone.
  { unfold accounted in Hacc. destruct (_inference_semaphore s).
    - lia.
    - unfold in_flight. by apply dormant_in_flight. }
  split_and!; [done | |].
  { intros t. simpl. destruct (tasks s !! t) as [c|]; [|done]. simpl.
    destruct (fr c); try done.
    destruct (_inference_semaphore s) as [sem|] eqn:Hsem; [|done]. simpl.
    unfold accounted in Hacc. rewrite Hsem in Hacc. unfold acquire.
    destruct (0 <? _value sem)%Z eqn:E; [lia | done]. }
  intros t c Ht.
  pose proof (Forall_lookup_1 _ _ _ _ (zero_capacity_no_acquire settings s Hzero Hreach) Ht)
    as Hacq. simpl in Hacq.
  pose proof (Forall_lookup_1 _ _ _ _ Hshape Ht) as Hc.
  destruct Hc as [Hw Hlog|o Hf Hlog|p cs Hf Hok Hlog|o cs Hf Hu Hlog];
    rewrite Hlog in *; done.
Qed.

Lemma zero_capacity_blocks_witness :
  in_flight stuck_state = 0%nat
  ∧ (∀ t, step zero_slots stuck_state (Grant t) = None)
  ∧ (∀ t c, tasks stuck_state !! t = Some c → backend_calls (log c) = []).
Proof.
  apply (zero_capacity_blocks zero_slots stuck_state); [reflexivity|].
  reach_by stuck_schedule.
Defined.
